(** * The signaling server of [app.js]: topic registry, message router,
      heartbeat and close path

    A shallow embedding of [send] and of the callbacks that [onconnection]
    registers ([setInterval] tick, ['pong'], ['close'], ['message']), with
    the properties of the connection lifecycle and of the topic fan-out.

    The [ws] connection object is an interface to the server: it is kept
    abstract (class [Channel]) and every call made on it is recorded. *)

From Stdlib Require Import QArith.
From stdpp Require Import gmap strings list fin_maps functions.

Set Warnings "-register-all,-notation-for-abbreviation".

Local Open Scope Z_scope.
Local Open Scope string_scope.
Local Open Scope list_scope.

(** ** JSON values *)

(** What [JSON.parse] builds. An object lists its properties in
    enumeration order, every key once. *)
Inductive value : Type :=
| VNull
| VBool (b : bool)
| VNum (q : Q)
| VStr (s : string)
| VArr (items : list value)
| VObj (fields : list (string * value)).

(** JavaScript truthiness, as tested by [&&], [||] and [if]. *)
Definition truthy (v : value) : bool :=
  match v with
  | VNull => false
  | VBool b => b
  | VNum q => negb (Qeq_bool q 0)
  | VStr s => negb (String.eqb s "")
  | VArr _ => true
  | VObj _ => true
  end.

Fixpoint assoc (k : string) (fields : list (string * value)) : option value :=
  match fields with
  | [] => None
  | (k', v) :: rest => if String.eqb k' k then Some v else assoc k rest
  end.

(** [v.k] for the property names the handler reads ([type], [topics],
    [topic]), which no built-in prototype defines: [None] is [undefined]. *)
Definition prop (v : value) (k : string) : option value :=
  match v with
  | VObj fields => assoc k fields
  | _ => None
  end.

(** Truthiness of a property read ([undefined] is falsy). *)
Definition truthy_prop (v : value) (k : string) : bool :=
  match prop v k with
  | Some x => truthy x
  | None => false
  end.

Fixpoint assign (k : string) (x : value) (fields : list (string * value))
  : list (string * value) :=
  match fields with
  | [] => [(k, x)]
  | (k', v) :: rest =>
      if String.eqb k' k then (k', x) :: rest else (k', v) :: assign k x rest
  end.

(** [v.k = x] on an object: an existing property keeps its place, a new
    one comes last. *)
Definition set_prop (k : string) (x : value) (v : value) : value :=
  match v with
  | VObj fields => VObj (assign k x fields)
  | _ => v
  end.

(** ** JavaScript [Set], in insertion order *)

Section JsSet.
Context {A : Type} `{EqDecision A}.

Definition set_add (x : A) (s : list A) : list A :=
  if decide (x ∈ s) then s else s ++ [x].

Definition set_delete (x : A) (s : list A) : list A :=
  filter (λ y, y ≠ x) s.

Definition set_size (s : list A) : nat := length s.
End JsSet.

(** ** Connections *)

Notation conn := nat (only parsing).

Definition wsReadyStateConnecting : Z := 0.
Definition wsReadyStateOpen : Z := 1.
Definition wsReadyStateClosing : Z := 2.
Definition wsReadyStateClosed : Z := 3.

(** The part of a [ws] connection that the server uses. [S] is the state
    the library keeps for one connection. [ch_send] and [ch_ping] return
    the new state and whether the call threw; [close()] does not throw. *)
Class Channel (S : Type) := {
  readyState : S → Z;
  ch_close : S → S;
  ch_send : S → value → S * bool;
  ch_ping : S → S * bool
}.

(** A call made on a connection object. [CallSend c m] is
    [c.send(JSON.stringify(m))]. *)
Inductive call :=
| CallSend (c : conn) (m : value)
| CallClose (c : conn)
| CallPing (c : conn).

(** The variables closed over by the callbacks of one connection;
    [pingInterval] tells whether the interval timer is still armed. *)
Record handle := Handle {
  subscribedTopics : list string;
  closed : bool;
  pongReceived : bool;
  pingInterval : bool
}.

Definition set_subscribedTopics (l : list string) (h : handle) : handle :=
  {| subscribedTopics := l; closed := closed h;
     pongReceived := pongReceived h; pingInterval := pingInterval h |}.

Definition set_closed (b : bool) (h : handle) : handle :=
  {| subscribedTopics := subscribedTopics h; closed := b;
     pongReceived := pongReceived h; pingInterval := pingInterval h |}.

Definition set_pongReceived (b : bool) (h : handle) : handle :=
  {| subscribedTopics := subscribedTopics h; closed := closed h;
     pongReceived := b; pingInterval := pingInterval h |}.

(** [clearInterval(pingInterval)] is [set_pingInterval false]. *)
Definition set_pingInterval (b : bool) (h : handle) : handle :=
  {| subscribedTopics := subscribedTopics h; closed := closed h;
     pongReceived := pongReceived h; pingInterval := b |}.

Inductive exn := SyntaxError | TypeError.

(** An inbound message, by what lines 99-101 make of it. *)
Inductive frame :=
| Unparseable           (* a string or Buffer on which JSON.parse throws *)
| Parsed (v : value)    (* a string or Buffer that JSON.parse turns into v *)
| Binary.               (* neither (ArrayBuffer, Buffer[]): it has no type *)

Section Server.
Context {S : Type} `{Channel S}.

Record state := State {
  topics : gmap string (list conn);
  handles : gmap conn handle;
  socks : conn → S;
  calls : list call
}.

(** A callback returns, or throws out of the event loop. *)
Inductive outcome :=
| Done (st : state)
| Threw (e : exn).

Definition set_topics (tps : gmap string (list conn)) (st : state) : state :=
  {| topics := tps; handles := handles st; socks := socks st;
     calls := calls st |}.

Definition set_handle (c : conn) (h : handle) (st : state) : state :=
  {| topics := topics st; handles := <[c := h]> (handles st);
     socks := socks st; calls := calls st |}.

Definition conn_close (c : conn) (st : state) : state :=
  {| topics := topics st; handles := handles st;
     socks := <[c := ch_close (socks st c)]> (socks st);
     calls := calls st ++ [CallClose c] |}.

Definition conn_send (c : conn) (m : value) (st : state) : bool * state :=
  let r := ch_send (socks st c) m in
  (r.2, {| topics := topics st; handles := handles st;
           socks := <[c := r.1]> (socks st);
           calls := calls st ++ [CallSend c m] |}).

Definition conn_ping (c : conn) (st : state) : bool * state :=
  let r := ch_ping (socks st c) in
  (r.2, {| topics := topics st; handles := handles st;
           socks := <[c := r.1]> (socks st);
           calls := calls st ++ [CallPing c] |}).

(** [send], lines 48-57. *)
Definition send (c : conn) (message : value) (st : state) : state :=
  let st1 :=
    if negb (Z.eqb (readyState (socks st c)) wsReadyStateConnecting)
       && negb (Z.eqb (readyState (socks st c)) wsReadyStateOpen)
    then conn_close c st
    else st in
  let r := conn_send c message st1 in
  if r.1 then conn_close c r.2 else r.2.

(** [onconnection], lines 64-66 and 68: fresh closure variables and an
    armed timer. *)
Definition onconnection (c : conn) (st : state) : state :=
  set_handle c {| subscribedTopics := []; closed := false;
                  pongReceived := true; pingInterval := true |} st.

(** The [setInterval] callback, lines 68-80. *)
Definition ontick (c : conn) (h : handle) (st : state) : state :=
  if negb (pongReceived h) then
    set_handle c (set_pingInterval false h) (conn_close c st)
  else
    let st1 := set_handle c (set_pongReceived false h) st in
    let r := conn_ping c st1 in
    if r.1 then conn_close c r.2 else r.2.

(** The ['pong'] callback, lines 82-84. *)
Definition onpong (c : conn) (h : handle) (st : state) : state :=
  set_handle c (set_pongReceived true h) st.

(** One turn of the loop of the ['close'] callback, lines 88-92. A topic
    missing from the registry gives a fresh empty set, of size 0. *)
Definition close_topic (c : conn) (tps : gmap string (list conn))
    (topicName : string) : gmap string (list conn) :=
  match tps !! topicName with
  | Some subs =>
      if Nat.eqb (set_size (set_delete c subs)) 0
      then delete topicName tps
      else <[topicName := set_delete c subs]> tps
  | None => delete topicName tps
  end.

(** The ['close'] callback, lines 86-96. *)
Definition onclose (c : conn) (h : handle) (st : state) : state :=
  set_handle c (set_closed true (set_subscribedTopics [] h))
             (set_topics (foldl (close_topic c) (topics st)
                                (subscribedTopics h)) st).

(** [topics.get(key)]: the registry has string keys only. *)
Definition topics_get (tps : gmap string (list conn)) (key : value)
  : option (list conn) :=
  match key with
  | VStr name => tps !! name
  | _ => None
  end.

(** One turn of the subscribe loop, lines 106-110, on the registry and
    on [subscribedTopics]. [setIfUndefined] of lib0 returns the set of
    the topic, which it creates empty when the key is missing. *)
Definition subscribe_topic (c : conn)
    (acc : gmap string (list conn) * list string) (topicName : value)
  : gmap string (list conn) * list string :=
  match topicName with
  | VStr name =>
      (<[name := set_add c (default [] (acc.1 !! name))]> acc.1,
       set_add name acc.2)
  | _ => acc
  end.

(** One turn of the unsubscribe loop, lines 115-118. *)
Definition unsubscribe_topic (c : conn) (tps : gmap string (list conn))
    (topicName : value) : gmap string (list conn) :=
  match topicName with
  | VStr name =>
      match tps !! name with
      | Some subs => <[name := set_delete c subs]> tps
      | None => tps
      end
  | _ => tps
  end.

(** [(message.topics || [])] as the receiver of [.forEach]: [None] when
    it is not an array, and the call throws a TypeError. *)
Definition topics_array (message : value) : option (list value) :=
  match prop message "topics" with
  | None => Some []
  | Some t =>
      if truthy t then
        match t with
        | VArr items => Some items
        | _ => None
        end
      else Some []
  end.

(** The publish branch, lines 122-128. *)
Definition publish (message : value) (st : state) : state :=
  match prop message "topic" with
  | Some t =>
      if truthy t then
        match topics_get (topics st) t with
        | Some receivers =>
            let message' :=
              set_prop "clients"
                (VNum (inject_Z (Z.of_nat (set_size receivers)))) message in
            foldl (λ st' receiver, send receiver message' st') st receivers
        | None => st
        end
      else st
  | None => st
  end.

(** The subscribe branch, lines 105-111, on the items of the array. *)
Definition subscribe (c : conn) (h : handle) (items : list value)
    (st : state) : state :=
  let acc := foldl (subscribe_topic c) (topics st, subscribedTopics h) items in
  set_handle c (set_subscribedTopics acc.2 h) (set_topics acc.1 st).

(** The unsubscribe branch, lines 114-119. *)
Definition unsubscribe (c : conn) (items : list value) (st : state) : state :=
  set_topics (foldl (unsubscribe_topic c) (topics st) items) st.

(** Lines 102-133, on the decoded message. *)
Definition route (c : conn) (h : handle) (message : value) (st : state)
  : outcome :=
  if truthy message && truthy_prop message "type" && negb (closed h) then
    match prop message "type" with
    | Some (VStr ty) =>
        if String.eqb ty "subscribe" then
          match topics_array message with
          | Some items => Done (subscribe c h items st)
          | None => Threw TypeError
          end
        else if String.eqb ty "unsubscribe" then
          match topics_array message with
          | Some items => Done (unsubscribe c items st)
          | None => Threw TypeError
          end
        else if String.eqb ty "publish" then
          Done (publish message st)
        else if String.eqb ty "ping" then
          Done (send c (VObj [("type", VStr "pong")]) st)
        else Done st
    | _ => Done st
    end
  else Done st.

(** The ['message'] callback, lines 98-134. *)
Definition onmessage (c : conn) (h : handle) (m : frame) (st : state)
  : outcome :=
  match m with
  | Unparseable => Threw SyntaxError
  | Parsed message => route c h message st
  | Binary => Done st
  end.

(** ** The event loop *)

Inductive event :=
| Connection (c : conn)
| Message (c : conn) (m : frame)
| Pong (c : conn)
| Close (c : conn)
| Tick (c : conn)
| Transport (c : conn) (s : S).

(** One event. [None]: the event cannot occur in this state (a callback
    of a connection that was never accepted, a tick of a cleared timer,
    a connection object accepted twice). [Transport] is the library or
    the peer changing the state of a channel. *)
Definition step (st : state) (ev : event) : option outcome :=
  match ev with
  | Connection c =>
      match handles st !! c with
      | None => Some (Done (onconnection c st))
      | Some _ => None
      end
  | Message c m =>
      match handles st !! c with
      | Some h => Some (onmessage c h m st)
      | None => None
      end
  | Pong c =>
      match handles st !! c with
      | Some h => Some (Done (onpong c h st))
      | None => None
      end
  | Close c =>
      match handles st !! c with
      | Some h => Some (Done (onclose c h st))
      | None => None
      end
  | Tick c =>
      match handles st !! c with
      | Some h =>
          if pingInterval h then Some (Done (ontick c h st)) else None
      | None => None
      end
  | Transport c s =>
      Some (Done {| topics := topics st; handles := handles st;
                    socks := <[c := s]> (socks st); calls := calls st |})
  end.

(** A run stops at the first callback that throws. *)
Fixpoint run (st : state) (evs : list event) : option outcome :=
  match evs with
  | [] => Some (Done st)
  | ev :: rest =>
      match step st ev with
      | Some (Done st') => run st' rest
      | r => r
      end
  end.

Definition init (sk : conn → S) : state :=
  {| topics := ∅; handles := ∅; socks := sk; calls := [] |}.

Definition reachable (st : state) : Prop :=
  ∃ sk evs, run (init sk) evs = Some (Done st).

(** ** Observations *)

Definition subscribers (st : state) (T : string) : list conn :=
  default [] (topics st !! T).

Definition sends_of (l : list call) : list (conn * value) :=
  omap (λ k, match k with CallSend c m => Some (c, m) | _ => None end) l.

End Server.

Arguments state S : clear implicits.
Arguments outcome S : clear implicits.
Arguments event S : clear implicits.

(** ** Invariants of the registry *)

Section Invariants.
Context {S : Type}.

(** The two indexes agree: a connection is in the set of a topic exactly
    when the topic is in its own [subscribedTopics]. *)
Definition consistent (st : state S) : Prop :=
  ∀ c h T, handles st !! c = Some h →
    (c ∈ subscribers st T ↔ T ∈ subscribedTopics h).

(** Every entry of the registry has a subscriber. *)
Definition no_empty_topic (st : state S) : Prop :=
  ∀ T subs, topics st !! T = Some subs → subs ≠ [].

(** What the callbacks do maintain: a member of a subscriber set is an
    accepted connection that lists the topic, the sets are duplicate
    free, and a closed connection lists nothing. *)
Record inv_on (tps : gmap string (list conn)) (hds : gmap conn handle)
  : Prop := Inv {
  inv_member : ∀ T subs c, tps !! T = Some subs → c ∈ subs →
    ∃ h, hds !! c = Some h ∧ T ∈ subscribedTopics h;
  inv_nodup : ∀ T subs, tps !! T = Some subs → NoDup subs;
  inv_closed : ∀ c h, hds !! c = Some h → closed h = true →
    subscribedTopics h = []
}.

Definition inv (st : state S) : Prop := inv_on (topics st) (handles st).

(** The subscribe loop has done its work for [name]: the connection is in
    the set of the topic and the topic is in the list of the connection. *)
Definition in_both (c : conn) (acc : gmap string (list conn) * list string)
    (name : string) : Prop :=
  (∃ subs, acc.1 !! name = Some subs ∧ c ∈ subs) ∧ name ∈ acc.2.
End Invariants.

(** ** A concrete channel and concrete messages *)

(** The ready state alone, moved as [ws] moves it: [close()] leaves a
    closed socket closed and makes any other closing; [send] and [ping]
    throw while the socket is connecting. *)
Definition ws_close (s : Z) : Z :=
  if Z.eqb s wsReadyStateClosed then wsReadyStateClosed
  else wsReadyStateClosing.

#[export] Instance ws_channel : Channel Z := {|
  readyState := λ s, s;
  ch_close := ws_close;
  ch_send := λ s _, (s, Z.eqb s wsReadyStateConnecting);
  ch_ping := λ s, (s, Z.eqb s wsReadyStateConnecting)
|}.

Definition subscribe_msg (items : list value) : value :=
  VObj [("type", VStr "subscribe"); ("topics", VArr items)].

Definition unsubscribe_msg (items : list value) : value :=
  VObj [("type", VStr "unsubscribe"); ("topics", VArr items)].

Definition publish_msg (T : string) : value :=
  VObj [("type", VStr "publish"); ("topic", VStr T); ("data", VStr "hi")].

Definition pong_msg : value := VObj [("type", VStr "pong")].

(** All sockets open. *)
Definition all_open : conn → Z := λ _, wsReadyStateOpen.

Definition fresh_handle : handle :=
  {| subscribedTopics := []; closed := false; pongReceived := true;
     pingInterval := true |}.

(** Connection 1 accepted, nothing else yet. *)
Definition accepted : state Z :=
  {| topics := ∅; handles := {[1%nat := fresh_handle]}; socks := all_open;
     calls := [] |}.

(** Connections 1 and 2 on the topic [room1], in that order. *)
Definition room : state Z :=
  {| topics := {["room1" := [1%nat; 2%nat]]};
     handles := {[1%nat := set_subscribedTopics ["room1"] fresh_handle;
                  2%nat := set_subscribedTopics ["room1"] fresh_handle]};
     socks := all_open; calls := [] |}.

Definition room_run : list (event Z) :=
  [Connection 1; Connection 2;
   Message 1 (Parsed (subscribe_msg [VStr "room1"]));
   Message 2 (Parsed (subscribe_msg [VStr "room1"]))].

(** Connection 1 subscribes to [a], then unsubscribes from it. *)
Definition leave_run : list (event Z) :=
  [Connection 1;
   Message 1 (Parsed (subscribe_msg [VStr "a"]));
   Message 1 (Parsed (unsubscribe_msg [VStr "a"]))].

(** A subscribe whose [topics] is a string, not an array. *)
Definition bad_subscribe_msg : value :=
  VObj [("type", VStr "subscribe"); ("topics", VStr "room1")].

(** ** Further observations *)

(** The entries of a [topics] array that are strings, in order. *)
Definition topic_names (items : list value) : list string :=
  omap (λ v, match v with VStr name => Some name | _ => None end) items.

(** The connection an event belongs to. *)
Definition event_conn {S : Type} (ev : event S) : conn :=
  match ev with
  | Connection c | Message c _ | Pong c | Close c | Tick c | Transport c _ => c
  end.

(** The connection a call is made on. *)
Definition call_conn (k : call) : conn :=
  match k with
  | CallSend c _ | CallClose c | CallPing c => c
  end.

(** Every entry of the registry is in the list of some accepted
    connection. *)
Definition entries_listed {S : Type} (st : state S) : Prop :=
  ∀ T subs, topics st !! T = Some subs →
    ∃ c h, handles st !! c = Some h ∧ T ∈ subscribedTopics h.

(** * Properties *)

(** ** Objects *)

Lemma assoc_assign_eq k x fields : assoc k (assign k x fields) = Some x.
Proof.
  induction fields as [|[k' v] rest IH]; simpl.
  - by rewrite String.eqb_refl.
  - destruct (String.eqb k' k) eqn:Hk; simpl; by rewrite Hk.
Qed.

Lemma assoc_assign_ne k k' x fields :
  k ≠ k' → assoc k' (assign k x fields) = assoc k' fields.
Proof.
  intros Hne. induction fields as [|[k0 v] rest IH]; simpl.
  - by apply String.eqb_neq in Hne as ->.
  - destruct (String.eqb k0 k) eqn:Hk; simpl.
    + apply String.eqb_eq in Hk as ->.
      by apply String.eqb_neq in Hne as ->.
    + by rewrite IH.
Qed.

(** After [v.k = x] on an object, [v.k] is [x] and the other properties
    are what they were. *)
Lemma prop_set_prop_eq k x v y :
  prop v k = Some y → prop (set_prop k x v) k = Some x.
Proof. destruct v; try done. intros _. apply assoc_assign_eq. Qed.

Lemma prop_set_prop_ne k k' x v :
  k ≠ k' → prop (set_prop k x v) k' = prop v k'.
Proof. intros Hne. destruct v; try done. by apply assoc_assign_ne. Qed.

Lemma prop_object v k y : prop v k = Some y → ∃ fields, v = VObj fields.
Proof. destruct v; try done. eauto. Qed.

(** ** Sets *)

Section JsSetFacts.
Context {A : Type} `{EqDecision A}.
Implicit Types (x y : A) (s : list A).

Lemma elem_of_set_add x y s : y ∈ set_add x s ↔ y = x ∨ y ∈ s.
Proof.
  unfold set_add. destruct (decide (x ∈ s)) as [Hin|Hin].
  - split; [by right | intros [->|?]; done].
  - rewrite elem_of_app, list_elem_of_singleton. tauto.
Qed.

Lemma set_add_member x s : x ∈ s → set_add x s = s.
Proof. intros Hin. unfold set_add. by rewrite decide_True. Qed.

Lemma set_add_idemp x s : set_add x (set_add x s) = set_add x s.
Proof. apply set_add_member, elem_of_set_add. by left. Qed.

Lemma NoDup_set_add x s : NoDup s → NoDup (set_add x s).
Proof.
  intros Hnd. unfold set_add. destruct (decide (x ∈ s)); [done|].
  apply list.NoDup_app. split_and!; [done | | apply NoDup_singleton].
  intros y Hy ->%list_elem_of_singleton. done.
Qed.

Lemma elem_of_set_delete x y s : y ∈ set_delete x s ↔ y ≠ x ∧ y ∈ s.
Proof. unfold set_delete. by rewrite list_elem_of_filter. Qed.

Lemma NoDup_set_delete x s : NoDup s → NoDup (set_delete x s).
Proof. unfold set_delete. apply list.NoDup_filter. Qed.

Lemma set_delete_absent x s : x ∉ s → set_delete x s = s.
Proof.
  intros Hx. unfold set_delete. induction s as [|y s IH]; [done|].
  rewrite filter_cons. apply not_elem_of_cons in Hx as [Hne Hs].
  rewrite decide_True by done. by rewrite IH.
Qed.
End JsSetFacts.

(** ** Calls on the channel *)

Section SendFacts.
Context {S : Type} `{Channel S}.
Implicit Types (st : state S) (c : conn) (m : value).

Lemma sends_of_app (l k : list call) :
  sends_of (l ++ k) = sends_of l ++ sends_of k.
Proof. apply omap_app. Qed.

Lemma send_topics c m st : topics (send c m st) = topics st.
Proof. unfold send. repeat case_match; done. Qed.

Lemma send_handles c m st : handles (send c m st) = handles st.
Proof. unfold send. repeat case_match; done. Qed.

Lemma send_sends c m st :
  sends_of (calls (send c m st)) = sends_of (calls st) ++ [(c, m)].
Proof.
  unfold send. repeat case_match; simpl;
    rewrite ?sends_of_app; simpl; rewrite ?app_nil_r; done.
Qed.

(** The calls of one [send]: a [close()] first when the channel is
    neither connecting nor open, the channel's [send] in every case, and
    a [close()] when that throws. *)
Lemma send_calls c m st :
  let dead := negb (Z.eqb (readyState (socks st c)) wsReadyStateConnecting)
              && negb (Z.eqb (readyState (socks st c)) wsReadyStateOpen) in
  let s1 := if dead then ch_close (socks st c) else socks st c in
  calls (send c m st)
  = calls st ++ (if dead then [CallClose c] else [])
      ++ [CallSend c m]
      ++ (if (ch_send s1 m).2 then [CallClose c] else []).
Proof.
  unfold send. simpl.
  destruct (negb _ && negb _); simpl; rewrite ?fn_lookup_insert;
    destruct (ch_send _ m) as [s' [|]]; simpl;
    by rewrite <- ?app_assoc.
Qed.

Lemma send_all_topics m (rs : list conn) st :
  topics (foldl (λ st' r, send r m st') st rs) = topics st.
Proof.
  revert st. induction rs as [|r rs IH]; intros st; simpl; [done|].
  by rewrite IH, send_topics.
Qed.

Lemma send_all_handles m (rs : list conn) st :
  handles (foldl (λ st' r, send r m st') st rs) = handles st.
Proof.
  revert st. induction rs as [|r rs IH]; intros st; simpl; [done|].
  by rewrite IH, send_handles.
Qed.

Lemma send_all_sends m (rs : list conn) st :
  sends_of (calls (foldl (λ st' r, send r m st') st rs))
  = sends_of (calls st) ++ map (λ r, (r, m)) rs.
Proof.
  revert st. induction rs as [|r rs IH]; intros st; simpl.
  - by rewrite app_nil_r.
  - by rewrite IH, send_sends, <- app_assoc.
Qed.

Lemma publish_topics m st : topics (publish m st) = topics st.
Proof. unfold publish. repeat case_match; auto using send_all_topics. Qed.

Lemma publish_handles m st : handles (publish m st) = handles st.
Proof. unfold publish. repeat case_match; auto using send_all_handles. Qed.
End SendFacts.

(** ** The loops over the registry *)

Section RegistryFacts.
Implicit Types (tps : gmap string (list conn)) (hds : gmap conn handle).
Implicit Types (c : conn) (h : handle) (T : string).

Lemma close_topic_lookup_eq c tps T :
  close_topic c tps T !! T
  = tps !! T ≫= λ subs,
      if Nat.eqb (set_size (set_delete c subs)) 0 then None
      else Some (set_delete c subs).
Proof.
  unfold close_topic. destruct (tps !! T) as [subs|] eqn:HT; simpl.
  - destruct (Nat.eqb _ 0); [apply lookup_delete_eq | apply lookup_insert_eq].
  - apply lookup_delete_eq.
Qed.

Lemma close_topic_lookup_ne c tps T T' :
  T ≠ T' → close_topic c tps T !! T' = tps !! T'.
Proof.
  intros Hne. unfold close_topic.
  destruct (tps !! T) as [subs|]; [destruct (Nat.eqb _ 0)|];
    by rewrite ?lookup_delete_ne, ?lookup_insert_ne.
Qed.

Lemma close_topic_lookup_Some c tps T subs' :
  close_topic c tps T !! T = Some subs' →
  ∃ subs, tps !! T = Some subs ∧ subs' = set_delete c subs ∧ subs' ≠ [].
Proof.
  rewrite close_topic_lookup_eq.
  destruct (tps !! T) as [subs|]; simpl; [|done].
  destruct (Nat.eqb _ 0) eqn:Hsz; [done|].
  intros [= <-]. exists subs. split_and!; [done..|].
  intros Hnil. unfold set_size in Hsz. by rewrite Hnil in Hsz.
Qed.

Lemma close_topic_twice c tps T :
  close_topic c (close_topic c tps T) T !! T = close_topic c tps T !! T.
Proof.
  rewrite (close_topic_lookup_eq c (close_topic c tps T)).
  destruct (close_topic c tps T !! T) as [subs'|] eqn:Hc; simpl; [|done].
  apply close_topic_lookup_Some in Hc as (subs & _ & -> & Hne).
  rewrite (set_delete_absent c (set_delete c subs)).
  - unfold set_size. destruct (set_delete c subs); done.
  - rewrite elem_of_set_delete. tauto.
Qed.

(** The close loop, topic by topic: the topics it runs over get the
    treatment of one turn, the others are left alone. *)
Lemma close_loop_lookup c (L : list string) tps T :
  foldl (close_topic c) tps L !! T
  = if decide (T ∈ L) then close_topic c tps T !! T else tps !! T.
Proof.
  revert tps. induction L as [|T0 L IH]; intros tps.
  - case_decide as Hin; [by apply not_elem_of_nil in Hin | done].
  - change (foldl (close_topic c) tps (T0 :: L))
      with (foldl (close_topic c) (close_topic c tps T0) L).
    rewrite IH. destruct (decide (T = T0)) as [->|Hne].
    + rewrite (decide_True (P := T0 ∈ T0 :: L)) by apply list_elem_of_here.
      destruct (decide (T0 ∈ L)); [apply close_topic_twice | done].
    + assert (Hsame : close_topic c (close_topic c tps T0) T !! T
                      = close_topic c tps T !! T).
      { rewrite !close_topic_lookup_eq.
        by rewrite close_topic_lookup_ne by done. }
      destruct (decide (T ∈ L)) as [Hin|Hin].
      * rewrite decide_True by (by apply list_elem_of_further). done.
      * rewrite decide_False.
        -- by apply close_topic_lookup_ne.
        -- intros [?|?]%elem_of_cons; done.
Qed.

(** Entries that are not strings are skipped. *)
Lemma subscribe_loop_strings c acc (items : list value) :
  (∀ v, v ∈ items → ∀ s, v ≠ VStr s) →
  foldl (subscribe_topic c) acc items = acc.
Proof.
  revert acc. induction items as [|v items IH]; intros acc Hns; [done|].
  simpl. rewrite IH.
  - destruct v; try done. exfalso. eapply Hns; [apply list_elem_of_here|done].
  - intros w Hw. apply Hns. by apply list_elem_of_further.
Qed.

Lemma subscribe_topic_in_both c acc name :
  in_both c (subscribe_topic c acc (VStr name)) name.
Proof.
  destruct acc as [tps subd]. split; simpl.
  - eexists. split; [apply lookup_insert_eq|]. apply elem_of_set_add. by left.
  - apply elem_of_set_add. by left.
Qed.

Lemma subscribe_topic_keeps c acc (t : value) name :
  in_both c acc name → in_both c (subscribe_topic c acc t) name.
Proof.
  intros [(subs & Hl & Hin) Hn]. destruct acc as [tps subd].
  destruct t as [| | |name'| |]; try (split; eauto; done).
  unfold in_both. simpl in *. split.
  - destruct (decide (name' = name)) as [->|Hne].
    + eexists. split; [apply lookup_insert_eq|]. rewrite Hl. simpl.
      apply elem_of_set_add. by right.
    + exists subs. by rewrite lookup_insert_ne.
  - simpl. apply elem_of_set_add. by right.
Qed.

Lemma subscribe_loop_keeps c (items : list value) acc name :
  in_both c acc name → in_both c (foldl (subscribe_topic c) acc items) name.
Proof.
  revert acc. induction items as [|t items IH]; intros acc Hin; [done|].
  simpl. by apply IH, subscribe_topic_keeps.
Qed.

Lemma subscribe_loop_in_both c (items : list value) acc name :
  VStr name ∈ items → in_both c (foldl (subscribe_topic c) acc items) name.
Proof.
  revert acc. induction items as [|t items IH]; intros acc Hin.
  - by apply not_elem_of_nil in Hin.
  - simpl. apply elem_of_cons in Hin as [<-|Hin]; [|by apply IH].
    apply subscribe_loop_keeps, subscribe_topic_in_both.
Qed.

Lemma subscribe_loop_done c (items : list value) acc :
  (∀ name, VStr name ∈ items → in_both c acc name) →
  foldl (subscribe_topic c) acc items = acc.
Proof.
  induction items as [|t items IH]; intros Hall; [done|].
  simpl. assert (subscribe_topic c acc t = acc) as ->.
  { destruct t as [| | |name| |]; try done.
    destruct (Hall name) as [(subs & Hl & Hin) Hn]; [apply list_elem_of_here|].
    destruct acc as [tps subd]. simpl in *. rewrite Hl. simpl.
    rewrite !set_add_member by done. by rewrite insert_id. }
  apply IH. intros name Hin. apply Hall. by apply list_elem_of_further.
Qed.

(** Running the subscribe loop a second time over the same array changes
    nothing. *)
Lemma subscribe_loop_twice c (items : list value) acc :
  foldl (subscribe_topic c) (foldl (subscribe_topic c) acc items) items
  = foldl (subscribe_topic c) acc items.
Proof. apply subscribe_loop_done. intros name. apply subscribe_loop_in_both. Qed.

Lemma only_member {A} (x : A) (l : list A) :
  NoDup l → (∀ y, y ∈ l → y = x) → l = [] ∨ l = [x].
Proof.
  intros Hnd Hall. destruct l as [|y [|z l]]; [by left| |].
  - right. f_equal. apply Hall, list_elem_of_here.
  - exfalso. apply list.NoDup_cons in Hnd as [Hy _]. apply Hy.
    rewrite (Hall y), (Hall z); [apply list_elem_of_here|..];
      repeat constructor.
Qed.
End RegistryFacts.

(** ** The invariant is kept by every callback *)

Section InvFacts.
Implicit Types (tps : gmap string (list conn)) (hds : gmap conn handle).
Implicit Types (c : conn) (h : handle) (T : string).

Lemma set_subscribedTopics_id h : set_subscribedTopics (subscribedTopics h) h = h.
Proof. by destruct h. Qed.

Lemma inv_on_empty : inv_on ∅ ∅.
Proof. split; intros *; by rewrite lookup_empty. Qed.

Lemma inv_on_unsubscribe c tps hds (t : value) :
  inv_on tps hds → inv_on (unsubscribe_topic c tps t) hds.
Proof.
  intros [Hm Hn Hc]. destruct t as [| | |name| |]; try done. simpl.
  destruct (tps !! name) as [subs|] eqn:Hname; [|done].
  split; [| |done].
  - intros T subs' c' Hl Hin. destruct (decide (T = name)) as [->|Hne].
    + rewrite lookup_insert_eq in Hl. injection Hl as <-.
      apply elem_of_set_delete in Hin as [_ Hin]. eauto.
    + rewrite lookup_insert_ne in Hl by done. eauto.
  - intros T subs' Hl. destruct (decide (T = name)) as [->|Hne].
    + rewrite lookup_insert_eq in Hl. injection Hl as <-.
      apply NoDup_set_delete. eauto.
    + rewrite lookup_insert_ne in Hl by done. eauto.
Qed.

Lemma inv_on_unsubscribe_loop c (items : list value) tps hds :
  inv_on tps hds → inv_on (foldl (unsubscribe_topic c) tps items) hds.
Proof.
  revert tps. induction items as [|t items IH]; intros tps Hinv; [done|].
  simpl. by apply IH, inv_on_unsubscribe.
Qed.

Lemma listed_grows c h hds (l l' : list string) c' h' T :
  (∀ x, x ∈ l → x ∈ l') →
  <[c := set_subscribedTopics l h]> hds !! c' = Some h' →
  T ∈ subscribedTopics h' →
  ∃ h'', <[c := set_subscribedTopics l' h]> hds !! c' = Some h''
         ∧ T ∈ subscribedTopics h''.
Proof.
  intros Hsub Hl HT. destruct (decide (c' = c)) as [->|Hne].
  - rewrite lookup_insert_eq in Hl. injection Hl as <-.
    rewrite lookup_insert_eq. eexists. split; [done|]. simpl in *. auto.
  - rewrite lookup_insert_ne in Hl by done.
    rewrite lookup_insert_ne by done. eauto.
Qed.

Lemma inv_on_subscribe c h hds acc (t : value) :
  closed h = false →
  inv_on acc.1 (<[c := set_subscribedTopics acc.2 h]> hds) →
  inv_on (subscribe_topic c acc t).1
         (<[c := set_subscribedTopics (subscribe_topic c acc t).2 h]> hds).
Proof.
  intros Hopen [Hm Hn Hc]. destruct acc as [tps subd].
  destruct t as [| | |name| |]; try (by split). simpl in *.
  assert (Hgrow : ∀ x, x ∈ subd → x ∈ set_add name subd).
  { intros x Hx. apply elem_of_set_add. by right. }
  split.
  - intros T subs c' Hl Hin. destruct (decide (T = name)) as [->|Hne].
    + rewrite lookup_insert_eq in Hl. injection Hl as <-.
      apply elem_of_set_add in Hin as [->|Hin].
      * rewrite lookup_insert_eq. eexists. split; [done|]. simpl.
        apply elem_of_set_add. by left.
      * destruct (tps !! name) as [old|] eqn:Hold; simpl in Hin;
          [|by apply not_elem_of_nil in Hin].
        destruct (Hm _ _ _ Hold Hin) as (h' & Hh' & HT).
        eauto using listed_grows.
    + rewrite lookup_insert_ne in Hl by done.
      destruct (Hm _ _ _ Hl Hin) as (h' & Hh' & HT).
      eauto using listed_grows.
  - intros T subs Hl. destruct (decide (T = name)) as [->|Hne].
    + rewrite lookup_insert_eq in Hl. injection Hl as <-.
      apply NoDup_set_add.
      destruct (tps !! name) as [old|] eqn:Hold; simpl;
        [eauto | apply NoDup_nil_2].
    + rewrite lookup_insert_ne in Hl by done. eauto.
  - intros c' h' Hl Hcl. destruct (decide (c' = c)) as [->|Hne].
    + rewrite lookup_insert_eq in Hl. injection Hl as <-.
      simpl in Hcl. congruence.
    + rewrite lookup_insert_ne in Hl by done.
      apply (Hc c'); [by rewrite lookup_insert_ne|done].
Qed.

Lemma inv_on_subscribe_loop c h hds (items : list value) acc :
  closed h = false →
  inv_on acc.1 (<[c := set_subscribedTopics acc.2 h]> hds) →
  inv_on (foldl (subscribe_topic c) acc items).1
    (<[c := set_subscribedTopics (foldl (subscribe_topic c) acc items).2 h]>
       hds).
Proof.
  intros Hopen. revert acc.
  induction items as [|t items IH]; intros acc Hinv; [done|].
  simpl. by apply IH, inv_on_subscribe.
Qed.

(** The close loop takes the connection out of every set, and only
    that. *)
Lemma close_loop_result c h tps hds T subs' :
  inv_on tps hds → hds !! c = Some h →
  foldl (close_topic c) tps (subscribedTopics h) !! T = Some subs' →
  ∃ subs, tps !! T = Some subs ∧ subs' = set_delete c subs.
Proof.
  intros [Hm Hn Hc] Hh. rewrite close_loop_lookup.
  destruct (decide (T ∈ subscribedTopics h)) as [Hin|Hout].
  - intros (subs & ? & ? & _)%close_topic_lookup_Some. eauto.
  - intros Hl. exists subs'. split; [done|].
    rewrite set_delete_absent; [done|].
    intros Hin. destruct (Hm _ _ _ Hl Hin) as (h' & Hh' & HT).
    congruence.
Qed.

Lemma close_loop_only_subscriber c h tps hds T :
  inv_on tps hds → hds !! c = Some h → tps !! T = Some [c] →
  foldl (close_topic c) tps (subscribedTopics h) !! T = None.
Proof.
  intros [Hm Hn Hc] Hh HT. rewrite close_loop_lookup.
  destruct (Hm T [c] c HT) as (h' & Hh' & Hin); [apply list_elem_of_here|].
  assert (h' = h) as -> by congruence.
  rewrite decide_True by done.
  rewrite close_topic_lookup_eq, HT. simpl.
  unfold set_delete. rewrite filter_cons, decide_False by (by intros ?).
  done.
Qed.

Lemma inv_on_close c h tps hds :
  inv_on tps hds → hds !! c = Some h →
  inv_on (foldl (close_topic c) tps (subscribedTopics h))
         (<[c := set_closed true (set_subscribedTopics [] h)]> hds).
Proof.
  intros Hinv Hh. split.
  - intros T subs' c' Hl Hin.
    destruct (close_loop_result _ _ _ _ _ _ Hinv Hh Hl) as (subs & Hs & ->).
    apply elem_of_set_delete in Hin as [Hne Hin].
    rewrite lookup_insert_ne by done. eapply inv_member; eauto.
  - intros T subs' Hl.
    destruct (close_loop_result _ _ _ _ _ _ Hinv Hh Hl) as (subs & Hs & ->).
    apply NoDup_set_delete. eapply inv_nodup; eauto.
  - intros c' h' Hl Hcl. destruct (decide (c' = c)) as [->|Hne].
    + rewrite lookup_insert_eq in Hl. by injection Hl as <-.
    + rewrite lookup_insert_ne in Hl by done. eapply inv_closed; eauto.
Qed.

(** Rewriting the liveness flag or the timer of a connection. *)
Lemma inv_on_flags c h h' tps hds :
  inv_on tps hds → hds !! c = Some h →
  subscribedTopics h' = subscribedTopics h → closed h' = closed h →
  inv_on tps (<[c := h']> hds).
Proof.
  intros [Hm Hn Hc] Hh Hs Hcl. split; [|done|].
  - intros T subs c' Hl Hin. destruct (Hm _ _ _ Hl Hin) as (h1 & Hh1 & HT).
    destruct (decide (c' = c)) as [->|Hne].
    + rewrite lookup_insert_eq. eexists. split; [done|]. congruence.
    + rewrite lookup_insert_ne by done. eauto.
  - intros c' h1 Hl Hc1. destruct (decide (c' = c)) as [->|Hne].
    + rewrite lookup_insert_eq in Hl. injection Hl as <-.
      rewrite Hs. apply (Hc c); [done | congruence].
    + rewrite lookup_insert_ne in Hl by done. eauto.
Qed.

Lemma inv_on_accept c h tps hds :
  inv_on tps hds → hds !! c = None → subscribedTopics h = [] →
  inv_on tps (<[c := h]> hds).
Proof.
  intros [Hm Hn Hc] Hh Hs. split; [|done|].
  - intros T subs c' Hl Hin. destruct (Hm _ _ _ Hl Hin) as (h1 & Hh1 & HT).
    rewrite lookup_insert_ne by congruence. eauto.
  - intros c' h1 Hl Hc1. destruct (decide (c' = c)) as [->|Hne].
    + rewrite lookup_insert_eq in Hl. by injection Hl as <-.
    + rewrite lookup_insert_ne in Hl by done. eauto.
Qed.
End InvFacts.

Section Reachability.
Context {S : Type} `{Channel S}.
Implicit Types (st : state S) (c : conn) (h : handle).

Lemma ontick_topics c h st : topics (ontick c h st) = topics st.
Proof. unfold ontick. repeat case_match; done. Qed.

Lemma ontick_handles c h st :
  handles (ontick c h st)
  = <[c := if pongReceived h then set_pongReceived false h
           else set_pingInterval false h]> (handles st).
Proof. unfold ontick. destruct (pongReceived h); simpl; [by case_match|done]. Qed.

Lemma route_inv c h (message : value) st st' :
  inv st → handles st !! c = Some h →
  route c h message st = Done st' → inv st'.
Proof.
  intros Hinv Hh. unfold route.
  destruct (truthy message && truthy_prop message "type" && negb (closed h))
    eqn:Hguard; [|by intros [= <-]].
  apply andb_prop in Hguard as [_ Hopen%negb_true_iff].
  destruct (prop message "type") as [[| | |ty| |]|]; try (by intros [= <-]).
  repeat case_match; intros [= <-]; try done; unfold inv; simpl.
  - apply inv_on_subscribe_loop; [done|]. simpl.
    by rewrite set_subscribedTopics_id, insert_id.
  - by apply inv_on_unsubscribe_loop.
  - by rewrite publish_topics, publish_handles.
  - by rewrite send_topics, send_handles.
Qed.

Lemma step_inv st ev st' :
  inv st → step st ev = Some (Done st') → inv st'.
Proof.
  intros Hinv. destruct ev as [c|c m|c|c|c|c s]; simpl;
    [destruct (handles st !! c) as [h|] eqn:Hh..|].
  - done.
  - intros [= <-]. by apply inv_on_accept.
  - destruct m as [|message|]; simpl; [done| |by intros [= <-]].
    intros [= Hr]. eauto using route_inv.
  - done.
  - intros [= <-]. by apply (inv_on_flags c h).
  - done.
  - intros [= <-]. by apply inv_on_close.
  - done.
  - destruct (pingInterval h); [|done]. intros [= <-].
    unfold inv. rewrite ontick_topics, ontick_handles.
    apply (inv_on_flags c h); [done..| |]; by destruct (pongReceived h).
  - done.
  - by intros [= <-].
Qed.

Lemma run_inv (evs : list (event S)) st st' :
  inv st → run st evs = Some (Done st') → inv st'.
Proof.
  revert st. induction evs as [|ev evs IH]; intros st Hinv; simpl.
  - by intros [= <-].
  - destruct (step st ev) as [[st1|e]|] eqn:Hstep; [|done..].
    eauto using step_inv.
Qed.

Lemma reachable_inv st : reachable st → inv st.
Proof.
  intros (sk & evs & Hrun). eapply run_inv; [|done]. apply inv_on_empty.
Qed.

(** What the close callback does to the registry and to the closure: the
    connection is in no set any more, a topic it was the only subscriber
    of is gone, its own list is empty and its closed flag is set. The
    timer is not among the things it touches. *)
Lemma onclose_unwinds c h st :
  inv st → handles st !! c = Some h →
  (∀ T, c ∉ subscribers (onclose c h st) T)
  ∧ (∀ T, topics st !! T = Some [c] → topics (onclose c h st) !! T = None)
  ∧ handles (onclose c h st) !! c
    = Some (set_closed true (set_subscribedTopics [] h)).
Proof.
  intros Hinv Hh. split_and!.
  - intros T. unfold subscribers, onclose. simpl.
    destruct (foldl _ _ _ !! T) as [subs'|] eqn:Hl; simpl;
      [|apply not_elem_of_nil].
    destruct (close_loop_result _ _ _ _ _ _ Hinv Hh Hl) as (subs & _ & ->).
    rewrite elem_of_set_delete. tauto.
  - intros T HT. unfold onclose. simpl.
    by eapply close_loop_only_subscriber.
  - unfold onclose. simpl. apply lookup_insert_eq.
Qed.
End Reachability.

(** ** The router, branch by branch *)

Section RouterFacts.
Context {S : Type} `{Channel S}.
Implicit Types (st : state S) (c : conn) (h : handle) (message : value).

Lemma typed_truthy message ty :
  prop message "type" = Some (VStr ty) → ty ≠ "" →
  truthy message && truthy_prop message "type" = true.
Proof.
  intros Hty Hne. unfold truthy_prop. rewrite Hty.
  destruct message; try done. simpl.
  by apply negb_true_iff, String.eqb_neq.
Qed.

Lemma route_closed c h message st :
  closed h = true → route c h message st = Done st.
Proof. intros Hcl. unfold route. by rewrite Hcl, andb_false_r. Qed.

Lemma step_closed c h message st :
  handles st !! c = Some h → closed h = true →
  step st (Message c (Parsed message)) = Some (Done st).
Proof. intros Hh Hcl. simpl. rewrite Hh. simpl. by rewrite route_closed. Qed.

(** A message with no [type], or a falsy one, is ignored. *)
Lemma route_untyped c h message st :
  truthy_prop message "type" = false → route c h message st = Done st.
Proof. intros Hty. unfold route. by rewrite Hty, andb_false_r. Qed.

(** So is a message whose [type] is none of the four. *)
Lemma route_unknown_type c h message ty st :
  prop message "type" = Some (VStr ty) →
  ty ≠ "subscribe" → ty ≠ "unsubscribe" → ty ≠ "publish" → ty ≠ "ping" →
  route c h message st = Done st.
Proof.
  intros Hty H1%String.eqb_neq H2%String.eqb_neq H3%String.eqb_neq
    H4%String.eqb_neq.
  unfold route. rewrite Hty, H1, H2, H3, H4. by case_match.
Qed.

(** A subscribe or an unsubscribe whose [topics] is truthy and not an
    array throws, on a connection that is not closed. *)
Lemma route_not_array c h message ty st :
  closed h = false → prop message "type" = Some (VStr ty) →
  ty = "subscribe" ∨ ty = "unsubscribe" →
  topics_array message = None →
  route c h message st = Threw TypeError.
Proof.
  intros Hopen Hty Hor Harr. unfold route.
  rewrite (typed_truthy _ _ Hty), Hopen, Hty, Harr
    by (by destruct Hor as [-> | ->]).
  by destruct Hor as [-> | ->].
Qed.

Lemma step_subscribe c h message items st :
  handles st !! c = Some h → closed h = false →
  prop message "type" = Some (VStr "subscribe") →
  topics_array message = Some items →
  step st (Message c (Parsed message)) = Some (Done (subscribe c h items st)).
Proof.
  intros Hh Hopen Hty Hitems. simpl. rewrite Hh. simpl. unfold route.
  rewrite (typed_truthy _ _ Hty), Hopen, Hty by done. simpl.
  by rewrite Hitems.
Qed.

Lemma step_unsubscribe c h message items st :
  handles st !! c = Some h → closed h = false →
  prop message "type" = Some (VStr "unsubscribe") →
  topics_array message = Some items →
  step st (Message c (Parsed message)) = Some (Done (unsubscribe c items st)).
Proof.
  intros Hh Hopen Hty Hitems. simpl. rewrite Hh. simpl. unfold route.
  rewrite (typed_truthy _ _ Hty), Hopen, Hty by done. simpl.
  by rewrite Hitems.
Qed.

Lemma step_publish c h message st :
  handles st !! c = Some h → closed h = false →
  prop message "type" = Some (VStr "publish") →
  step st (Message c (Parsed message)) = Some (Done (publish message st)).
Proof.
  intros Hh Hopen Hty. simpl. rewrite Hh. simpl. unfold route.
  by rewrite (typed_truthy _ _ Hty), Hopen, Hty.
Qed.

Lemma step_ping c h message st :
  handles st !! c = Some h → closed h = false →
  prop message "type" = Some (VStr "ping") →
  step st (Message c (Parsed message))
  = Some (Done (send c (VObj [("type", VStr "pong")]) st)).
Proof.
  intros Hh Hopen Hty. simpl. rewrite Hh. simpl. unfold route.
  by rewrite (typed_truthy _ _ Hty), Hopen, Hty.
Qed.
End RouterFacts.

(** * The claims *)

Section Claims.
Context {S : Type} `{Channel S}.
Implicit Types (st : state S) (c : conn) (h : handle) (message : value).

(** C9. Closed connections are inert: once the closed flag of a connection
    is set, a message that arrives for it (subscribe, unsubscribe, publish,
    ping or any other JSON value) is dropped: the callback returns and the
    whole state, so the registry, the subscribed topics of the connection
    and the calls made on the channels, is what it was. In a reachable
    state such a connection is in no subscriber set either. *)
Theorem closed_connection_inert c h message st :
  handles st !! c = Some h → closed h = true →
  step st (Message c (Parsed message)) = Some (Done st)
  ∧ (reachable st → ∀ T, c ∉ subscribers st T).
Proof.
  intros Hh Hcl. split.
  - simpl. rewrite Hh. simpl. unfold route.
    rewrite Hcl. by rewrite andb_false_r.
  - intros Hinv%reachable_inv T Hin. unfold subscribers in Hin.
    destruct (topics st !! T) as [subs|] eqn:HT; simpl in Hin;
      [|by apply not_elem_of_nil in Hin].
    destruct (inv_member _ _ Hinv _ _ _ HT Hin) as (h' & Hh' & Hlisted).
    assert (h' = h) as -> by congruence.
    rewrite (inv_closed _ _ Hinv _ _ Hh Hcl) in Hlisted.
    by apply not_elem_of_nil in Hlisted.
Qed.

(** C7. Heartbeat: when the timer of a connection fires and no pong came
    since the last probe, [close()] is called on the connection and the
    timer is cleared, so that it does not fire again; when a pong did
    come, the flag is reset to false, the timer stays armed and a ping is
    sent, and a ping that throws makes the callback call [close()]. A
    pong, whenever it arrives, sets the flag to true. Neither touches the
    registry, the subscribed topics or the closed flag. *)
Theorem heartbeat_tick c h st :
  handles st !! c = Some h →
  (pingInterval h = true →
   ∃ st' h', step st (Tick c) = Some (Done st')
     ∧ topics st' = topics st
     ∧ handles st' !! c = Some h'
     ∧ subscribedTopics h' = subscribedTopics h ∧ closed h' = closed h
     ∧ (pongReceived h = false →
        handles st' = <[c := set_pingInterval false h]> (handles st)
        ∧ pingInterval h' = false ∧ pongReceived h' = false
        ∧ step st' (Tick c) = None
        ∧ calls st' = calls st ++ [CallClose c])
     ∧ (pongReceived h = true →
        handles st' = <[c := set_pongReceived false h]> (handles st)
        ∧ pongReceived h' = false ∧ pingInterval h' = true
        ∧ calls st' = calls st ++ CallPing c ::
            (if (ch_ping (socks st c)).2 then [CallClose c] else [])))
  ∧ (∃ st' h', step st (Pong c) = Some (Done st')
      ∧ handles st' = <[c := set_pongReceived true h]> (handles st)
      ∧ handles st' !! c = Some h'
      ∧ pongReceived h' = true ∧ pingInterval h' = pingInterval h
      ∧ subscribedTopics h' = subscribedTopics h ∧ closed h' = closed h
      ∧ topics st' = topics st ∧ calls st' = calls st).
Proof.
  intros Hh. split.
  - intros Htimer.
    exists (ontick c h st),
      (if pongReceived h then set_pongReceived false h
       else set_pingInterval false h).
    split; [simpl; by rewrite Hh, Htimer|].
    split; [apply ontick_topics|].
    split; [rewrite ontick_handles; apply lookup_insert_eq|].
    split; [by destruct (pongReceived h)|].
    split; [by destruct (pongReceived h)|].
    split; intros Hpong; rewrite Hpong.
    + split; [by rewrite ontick_handles, Hpong|].
      split; [done|]. split; [done|]. split.
      * unfold step. by rewrite ontick_handles, Hpong, lookup_insert_eq.
      * unfold ontick. by rewrite Hpong.
    + split; [by rewrite ontick_handles, Hpong|].
      split; [done|]. split; [done|].
      unfold ontick. rewrite Hpong. simpl.
      destruct (ch_ping (socks st c)) as [s' [|]]; simpl;
        by rewrite <- ?app_assoc.
  - exists (onpong c h st), (set_pongReceived true h).
    split; [simpl; by rewrite Hh|]. split; [done|].
    split; [simpl; apply lookup_insert_eq|]. done.
Qed.

(** C10. The empty string as a topic name: a subscribe takes it (it is a
    string), so the registry gets an entry for it that holds the
    connection; a publish whose [topic] is the empty string does nothing,
    also with subscribers on that topic, exactly like a publish with no
    [topic] at all: no call on any channel, no [clients] written. *)
Theorem empty_topic_name c h message st :
  handles st !! c = Some h → closed h = false →
  prop message "type" = Some (VStr "publish") →
  prop message "topic" = Some (VStr "") →
  ∃ st1,
    step st (Message c (Parsed (subscribe_msg [VStr ""]))) = Some (Done st1)
    ∧ is_Some (topics st1 !! "")
    ∧ c ∈ subscribers st1 ""
    ∧ step st1 (Message c (Parsed message)) = Some (Done st1)
    ∧ ∀ message', prop message' "type" = Some (VStr "publish") →
        prop message' "topic" = None →
        step st1 (Message c (Parsed message')) = Some (Done st1).
Proof.
  intros Hh Hopen Hty Hto. eexists. split.
  { by apply (step_subscribe c h _ [VStr ""]). }
  split; [simpl; by rewrite lookup_insert_eq|].
  split.
  { unfold subscribers. simpl. rewrite lookup_insert_eq. simpl.
    apply elem_of_set_add. by left. }
  split.
  - erewrite step_publish; [|apply lookup_insert_eq|done..].
    unfold publish. by rewrite Hto.
  - intros message' Hty' Hto'.
    erewrite step_publish; [|apply lookup_insert_eq|done..].
    unfold publish. by rewrite Hto'.
Qed.

(** C8. Subscribe is idempotent: a subscribe message handled a second time
    leaves the state that the first handling made, whatever its array of
    topics. And when the message names one topic that no other connection
    is subscribed to, the set of that topic holds the connection alone, so
    its size is 1 after the two subscribes. *)
Theorem subscribe_idempotent c h message items st :
  reachable st → handles st !! c = Some h →
  prop message "type" = Some (VStr "subscribe") →
  topics_array message = Some items →
  ∃ st1,
    step st (Message c (Parsed message)) = Some (Done st1)
    ∧ step st1 (Message c (Parsed message)) = Some (Done st1)
    ∧ ∀ T, closed h = false → items = [VStr T] →
        (∀ c', c' ∈ subscribers st T → c' = c) →
        subscribers st1 T = [c] ∧ set_size (subscribers st1 T) = 1%nat.
Proof.
  intros Hreach Hh Hty Hitems. destruct (closed h) eqn:Hcl.
  - exists st. split_and!; [by eapply step_closed..|done].
  - exists (subscribe c h items st). split; [by apply step_subscribe|].
    split.
    + erewrite step_subscribe; [|apply lookup_insert_eq|done..].
      do 2 f_equal. unfold subscribe. cbn [topics handles set_handle
        set_topics subscribedTopics set_subscribedTopics socks calls].
      rewrite <- surjective_pairing, subscribe_loop_twice.
      unfold set_handle, set_topics. cbn. by rewrite insert_insert_eq.
    + intros T _ -> Honly.
      assert (subscribers (subscribe c h [VStr T] st) T = [c]) as ->; [|done].
      unfold subscribers at 1. cbn. rewrite lookup_insert_eq. cbn.
      apply reachable_inv in Hreach.
      fold (subscribers st T).
      destruct (only_member c (subscribers st T)) as [->| ->];
        [| |done|apply set_add_member, list_elem_of_here]; [|done].
      unfold subscribers. destruct (topics st !! T) as [subs|] eqn:HT;
        simpl; [by eapply inv_nodup|apply NoDup_nil_2].
Qed.

(** C6, amended. Publish fan-out: a publish message for a topic whose
    name is not the empty string, handled for a connection that is not
    closed, makes one [send] call per member of the set of the topic, in
    the order of the set, which lists no connection twice, the sender
    included when it is a member. Every call carries the message with
    [clients] set to the size of the set and its other properties kept.
    For a topic that is not in the registry the state stays as it is: no
    call, no exception. The registry is never changed. *)
Theorem publish_fanout c h message T st :
  reachable st → handles st !! c = Some h → closed h = false →
  prop message "type" = Some (VStr "publish") →
  prop message "topic" = Some (VStr T) → T ≠ "" →
  let N := VNum (inject_Z (Z.of_nat (set_size (subscribers st T)))) in
  let message' := set_prop "clients" N message in
  ∃ st',
    step st (Message c (Parsed message)) = Some (Done st')
    ∧ topics st' = topics st
    ∧ NoDup (subscribers st T)
    ∧ sends_of (calls st')
      = sends_of (calls st) ++ map (λ r, (r, message')) (subscribers st T)
    ∧ prop message' "clients" = Some N
    ∧ (∀ k, k ≠ "clients" → prop message' k = prop message k)
    ∧ (topics st !! T = None → st' = st).
Proof.
  intros Hreach Hh Hopen Hty Hto HT N message'.
  exists (publish message st). split; [by eapply step_publish|].
  split; [apply publish_topics|].
  split.
  { apply reachable_inv in Hreach. unfold subscribers.
    destruct (topics st !! T) as [subs|] eqn:Hsubs; simpl;
      [by eapply inv_nodup | apply NoDup_nil_2]. }
  assert (truthy (VStr T) = true) as Htruthy.
  { simpl. by apply negb_true_iff, String.eqb_neq. }
  split.
  { unfold publish. rewrite Hto, Htruthy. simpl.
    subst message' N. unfold subscribers.
    destruct (topics st !! T) as [subs|]; simpl.
    - apply send_all_sends.
    - by rewrite app_nil_r. }
  split.
  { destruct (prop_object _ _ _ Hty) as [fields ->]. apply assoc_assign_eq. }
  split; [intros k Hk; by apply prop_set_prop_ne|].
  intros Hnone. unfold publish. by rewrite Hto, Htruthy; simpl; rewrite Hnone.
Qed.

End Claims.

(** A closed connection: accepted, subscribed to [a], then closed. *)
Lemma closed_connection_inert_witness :
  ∃ (st : state Z) h,
    run (init all_open)
        [Connection 1; Message 1 (Parsed (subscribe_msg [VStr "a"]));
         Close 1] = Some (Done st)
    ∧ handles st !! 1%nat = Some h ∧ closed h = true
    ∧ step st (Message 1 (Parsed (subscribe_msg [VStr "b"])))
      = Some (Done st).
Proof.
  eexists _, _. split; [vm_compute; reflexivity|].
  split; [vm_compute; reflexivity|]. split; [reflexivity|].
  eapply closed_connection_inert; reflexivity.
Defined.

(** * Concrete runs *)

Lemma reachable_accepted : reachable accepted.
Proof. exists all_open, [Connection 1]. reflexivity. Qed.

Lemma reachable_room : reachable room.
Proof. exists all_open, room_run. vm_compute. reflexivity. Qed.

(** The first tick of a connection finds the flag true: it resets it,
    keeps the timer and pings. In the state this makes, a second tick
    closes the connection and clears the timer for good, and a pong sets
    the flag again. *)
Lemma heartbeat_tick_witness :
  handles accepted !! 1%nat = Some fresh_handle
  ∧ (∃ (st' : state Z) h',
       step accepted (Tick 1) = Some (Done st')
       ∧ handles st' !! 1%nat = Some h'
       ∧ pongReceived h' = false ∧ pingInterval h' = true
       ∧ calls st' = [CallPing 1])
  ∧ (∃ (st' : state Z) h',
       step (ontick 1 fresh_handle accepted) (Tick 1) = Some (Done st')
       ∧ handles st' !! 1%nat = Some h'
       ∧ pingInterval h' = false
       ∧ step st' (Tick 1) = None
       ∧ calls st' = [CallPing 1; CallClose 1])
  ∧ (∃ (st' : state Z) h',
       step (ontick 1 fresh_handle accepted) (Pong 1) = Some (Done st')
       ∧ handles st' !! 1%nat = Some h'
       ∧ pongReceived h' = true ∧ pingInterval h' = true).
Proof.
  split; [reflexivity|].
  destruct (heartbeat_tick 1 fresh_handle accepted eq_refl) as [Htick _].
  destruct (Htick eq_refl) as (st1 & h1 & Hstep1 & _ & Hh1 & _ & _ & _ & Hpong1).
  destruct (Hpong1 eq_refl) as (_ & Hflag1 & Htimer1 & Hcalls1).
  split.
  { exists st1, h1. split; [exact Hstep1|]. split; [exact Hh1|].
    split; [exact Hflag1|]. split; [exact Htimer1|].
    rewrite Hcalls1. reflexivity. }
  assert (Hsecond : handles (ontick 1 fresh_handle accepted) !! 1%nat
                    = Some (set_pongReceived false fresh_handle))
    by (vm_compute; reflexivity).
  destruct (heartbeat_tick 1 (set_pongReceived false fresh_handle)
              (ontick 1 fresh_handle accepted) Hsecond) as [Htick2 Hpong2].
  destruct (Htick2 eq_refl)
    as (st2 & h2 & Hstep2 & _ & Hh2 & _ & _ & Hsilent & _).
  destruct (Hsilent eq_refl) as (_ & Htimer2 & _ & Hnone & Hcalls2).
  destruct Hpong2 as (st3 & h3 & Hstep3 & _ & Hh3 & Hflag3 & Htimer3 & _).
  split.
  - exists st2, h2. split; [exact Hstep2|]. split; [exact Hh2|].
    split; [exact Htimer2|]. split; [exact Hnone|].
    rewrite Hcalls2. reflexivity.
  - exists st3, h3. split; [exact Hstep3|]. split; [exact Hh3|].
    split; [exact Hflag3|]. rewrite Htimer3. reflexivity.
Defined.

(** Connection 1 subscribes to the empty name and publishes to it. *)
Lemma empty_topic_name_witness :
  handles accepted !! 1%nat = Some fresh_handle
  ∧ ∃ st1 : state Z,
      step accepted (Message 1 (Parsed (subscribe_msg [VStr ""])))
      = Some (Done st1)
      ∧ 1%nat ∈ subscribers st1 ""
      ∧ step st1 (Message 1 (Parsed (publish_msg ""))) = Some (Done st1).
Proof.
  split; [reflexivity|].
  destruct (empty_topic_name 1 fresh_handle (publish_msg "") accepted
              eq_refl eq_refl eq_refl eq_refl)
    as (st1 & Hsub & _ & Hin & Hpub & _).
  exists st1. split; [exact Hsub|]. split; [exact Hin|exact Hpub].
Defined.

(** Connection 1 subscribes to [a] twice. *)
Lemma subscribe_idempotent_witness :
  reachable accepted
  ∧ handles accepted !! 1%nat = Some fresh_handle
  ∧ ∃ st1 : state Z,
      step accepted (Message 1 (Parsed (subscribe_msg [VStr "a"])))
      = Some (Done st1)
      ∧ step st1 (Message 1 (Parsed (subscribe_msg [VStr "a"])))
        = Some (Done st1)
      ∧ set_size (subscribers st1 "a") = 1%nat.
Proof.
  split; [exact reachable_accepted|]. split; [reflexivity|].
  destruct (subscribe_idempotent 1 fresh_handle (subscribe_msg [VStr "a"])
              [VStr "a"] accepted reachable_accepted
              eq_refl eq_refl eq_refl)
    as (st1 & Hone & Htwo & Hsize).
  exists st1. split; [exact Hone|]. split; [exact Htwo|].
  apply (Hsize "a"); [reflexivity..|].
  intros c' Hin. by apply not_elem_of_nil in Hin.
Defined.

(** Connection 1 publishes to [room1], where 1 and 2 are subscribed: both
    get the message, with [clients] 2. *)
Lemma publish_fanout_witness :
  reachable room
  ∧ handles room !! 1%nat = Some (set_subscribedTopics ["room1"] fresh_handle)
  ∧ ∃ st' : state Z,
      step room (Message 1 (Parsed (publish_msg "room1"))) = Some (Done st')
      ∧ sends_of (calls st')
        = [(1%nat, VObj [("type", VStr "publish"); ("topic", VStr "room1");
                         ("data", VStr "hi"); ("clients", VNum 2)]);
           (2%nat, VObj [("type", VStr "publish"); ("topic", VStr "room1");
                         ("data", VStr "hi"); ("clients", VNum 2)])].
Proof.
  split; [exact reachable_room|]. split; [reflexivity|].
  destruct (publish_fanout 1 (set_subscribedTopics ["room1"] fresh_handle)
              (publish_msg "room1") "room1" room reachable_room
              eq_refl eq_refl eq_refl eq_refl)
    as (st' & Hstep & _ & _ & Hsends & _); [done|].
  exists st'. split; [exact Hstep|]. rewrite Hsends. reflexivity.
Defined.

(** C6, counterexample to the fan-out for every topic: with connection 1
    subscribed to the topic named by the empty string (one subscriber), a
    publish to it makes no [send] call at all. *)
Lemma publish_empty_topic_name_sends_nothing :
  ∃ st st' : state Z,
    run (init all_open)
        [Connection 1; Message 1 (Parsed (subscribe_msg [VStr ""]))]
    = Some (Done st)
    ∧ subscribers st "" = [1%nat]
    ∧ step st (Message 1 (Parsed (publish_msg ""))) = Some (Done st')
    ∧ sends_of (calls st') = [].
Proof.
  eexists _, _. split; [vm_compute; reflexivity|].
  split; [vm_compute; reflexivity|].
  split; [vm_compute; reflexivity|]. reflexivity.
Qed.

(** C1. After connection 1 subscribes to [a] and unsubscribes from it, it
    is no longer in the set of [a], and [a] is still in its
    [subscribedTopics]: the unsubscribe loop takes the connection out of
    the registry and leaves the connection's own list as it was, so the
    two indexes disagree. *)
Theorem unsubscribe_keeps_topic_name :
  ∃ (st : state Z) h,
    run (init all_open) leave_run = Some (Done st)
    ∧ handles st !! 1%nat = Some h
    ∧ subscribedTopics h = ["a"]
    ∧ subscribers st "a" = []
    ∧ ¬ consistent st.
Proof.
  eexists _, _. split; [vm_compute; reflexivity|].
  split; [vm_compute; reflexivity|]. split; [reflexivity|].
  split; [vm_compute; reflexivity|].
  intros Hc. specialize (Hc 1%nat _ "a" ltac:(vm_compute; reflexivity)).
  destruct Hc as [_ Hc].
  assert (Hin : 1%nat ∈ ([] : list nat)); [|by apply not_elem_of_nil in Hin].
  apply Hc. apply list_elem_of_here.
Qed.

(** C2. A message that [JSON.parse] rejects makes the message callback
    throw a SyntaxError, and a subscribe whose [topics] is a string makes
    it throw a TypeError: nothing catches either, the callback does not
    return. *)
Theorem malformed_message_throws :
  run (init all_open) [Connection 1; Message 1 Unparseable]
  = Some (Threw SyntaxError)
  ∧ run (init all_open) [Connection 1; Message 1 (Parsed bad_subscribe_msg)]
    = Some (Threw TypeError)
  ∧ ∀ c h (st : state Z), onmessage c h Unparseable st = Threw SyntaxError.
Proof. split_and!; reflexivity. Qed.

(** C3. After connection 1 subscribes to [a] and unsubscribes from it, the
    registry still has the entry [a], with an empty set: the unsubscribe
    loop never deletes an entry. *)
Theorem unsubscribe_leaves_empty_topic :
  (∀ c tps t, dom (unsubscribe_topic c tps t) = dom tps)
  ∧ ∃ st : state Z,
      run (init all_open) leave_run = Some (Done st)
      ∧ topics st !! "a" = Some []
      ∧ ¬ no_empty_topic st.
Proof.
  split.
  - intros c tps [| | |name| |]; try done. simpl.
    destruct (tps !! name) as [subs|] eqn:Hname; [|done].
    apply set_eq. intros T. rewrite !elem_of_dom.
    destruct (decide (T = name)) as [->|Hne].
    + rewrite lookup_insert_eq, Hname. split; eauto.
    + by rewrite lookup_insert_ne.
  - eexists. split; [vm_compute; reflexivity|].
    split; [vm_compute; reflexivity|].
    intros Hne. by apply (Hne "a" []); [vm_compute; reflexivity|].
Qed.

(** C4. The close callback marks the connection closed and empties its
    list of topics, and leaves the timer as it is. After connection 1 is
    accepted, subscribes to [a] and is closed by its peer, the registry is
    empty and the timer of the connection is still armed: its next tick
    runs and pings the closed connection. *)
Theorem close_leaves_timer_armed :
  (∀ c h (st : state Z),
     handles (onclose c h st) !! c
     = Some {| subscribedTopics := []; closed := true;
               pongReceived := pongReceived h;
               pingInterval := pingInterval h |})
  ∧ ∃ st st' : state Z,
      run (init all_open)
          [Connection 1; Message 1 (Parsed (subscribe_msg [VStr "a"]));
           Transport 1 wsReadyStateClosed; Close 1] = Some (Done st)
      ∧ topics st = ∅
      ∧ handles st !! 1%nat
        = Some {| subscribedTopics := []; closed := true;
                  pongReceived := true; pingInterval := true |}
      ∧ step st (Tick 1) = Some (Done st')
      ∧ calls st' = [CallPing 1].
Proof.
  split.
  - intros c h st. unfold onclose. simpl. apply lookup_insert_eq.
  - eexists _, _. split; [vm_compute; reflexivity|].
    split; [vm_compute; reflexivity|].
    split; [vm_compute; reflexivity|].
    split; [vm_compute; reflexivity|]. reflexivity.
Qed.

(** C5. [send] on a connection whose ready state is CLOSED calls
    [close()] and then calls [send] on it all the same; in every state of
    the channel [send] ends up calling the channel's [send]. *)
Theorem send_to_closed_channel_still_sends :
  calls (send 1 pong_msg (init (λ _, wsReadyStateClosed)))
  = [CallClose 1; CallSend 1 pong_msg]
  ∧ ∀ (sk : conn → Z) c m,
      sends_of (calls (send c m (init sk))) = [(c, m)].
Proof.
  split; [reflexivity|]. intros sk c m. by rewrite send_sends.
Qed.

(** * Further properties of the callbacks *)

(** ** The loops, entry by entry *)

Section LoopFacts.
Implicit Types (tps : gmap string (list conn)) (c : conn) (T : string).

Lemma elem_of_topic_names (items : list value) T :
  T ∈ topic_names items ↔ VStr T ∈ items.
Proof.
  unfold topic_names. rewrite list_elem_of_omap. split.
  - intros (v & Hin & Hv). destruct v; try done. by injection Hv as ->.
  - intros Hin. by exists (VStr T).
Qed.

Lemma set_delete_twice c (l : list conn) :
  set_delete c (set_delete c l) = set_delete c l.
Proof.
  apply set_delete_absent. rewrite elem_of_set_delete. tauto.
Qed.

Lemma set_delete_add_absent c (l : list conn) :
  c ∉ l → set_delete c (set_add c l) = l.
Proof.
  intros Hc. unfold set_add. rewrite decide_False by done.
  unfold set_delete. rewrite list.filter_app. fold (set_delete c l).
  rewrite set_delete_absent by done.
  rewrite filter_cons, decide_False by (by intros ?). simpl.
  by rewrite app_nil_r.
Qed.

Lemma subscribe_loop_names c acc (items : list value) :
  foldl (subscribe_topic c) acc items
  = foldl (subscribe_topic c) acc (VStr <$> topic_names items).
Proof.
  revert acc. induction items as [|v items IH]; intros acc; [done|].
  destruct v; simpl; by rewrite IH.
Qed.

Lemma unsubscribe_loop_names c tps (items : list value) :
  foldl (unsubscribe_topic c) tps items
  = foldl (unsubscribe_topic c) tps (VStr <$> topic_names items).
Proof.
  revert tps. induction items as [|v items IH]; intros tps; [done|].
  destruct v; simpl; by rewrite IH.
Qed.

Lemma subscribe_loop_lookup c acc (items : list value) T :
  default [] ((foldl (subscribe_topic c) acc items).1 !! T)
  = if decide (T ∈ topic_names items)
    then set_add c (default [] (acc.1 !! T))
    else default [] (acc.1 !! T).
Proof.
  revert acc. induction items as [|v items IH]; intros acc.
  - case_decide as Hin; [by apply not_elem_of_nil in Hin|done].
  - change (foldl (subscribe_topic c) acc (v :: items))
      with (foldl (subscribe_topic c) (subscribe_topic c acc v) items).
    rewrite IH. destruct v as [| | |name| |]; try done.
    destruct acc as [tps subd]. simpl.
    destruct (decide (T = name)) as [->|Hne].
    + rewrite lookup_insert_eq. simpl.
      rewrite (decide_True (P := name ∈ name :: topic_names items))
        by apply list_elem_of_here.
      destruct (decide (name ∈ topic_names items));
        [apply set_add_idemp | done].
    + rewrite lookup_insert_ne by done.
      destruct (decide (T ∈ topic_names items)) as [Hin|Hin].
      * rewrite decide_True; [done | by apply list_elem_of_further].
      * rewrite decide_False; [done|]. intros [?|?]%elem_of_cons; done.
Qed.

Lemma subscribe_loop_listed c acc (items : list value) T :
  T ∈ (foldl (subscribe_topic c) acc items).2
  ↔ T ∈ acc.2 ∨ T ∈ topic_names items.
Proof.
  revert acc. induction items as [|v items IH]; intros acc.
  - simpl. rewrite elem_of_nil. tauto.
  - change (foldl (subscribe_topic c) acc (v :: items))
      with (foldl (subscribe_topic c) (subscribe_topic c acc v) items).
    rewrite IH. destruct v as [| | |name| |]; try done.
    destruct acc as [tps subd]. simpl.
    rewrite elem_of_set_add, elem_of_cons. tauto.
Qed.

Lemma unsubscribe_loop_lookup c tps (items : list value) T :
  foldl (unsubscribe_topic c) tps items !! T
  = if decide (T ∈ topic_names items)
    then set_delete c <$> tps !! T
    else tps !! T.
Proof.
  revert tps. induction items as [|v items IH]; intros tps.
  - case_decide as Hin; [by apply not_elem_of_nil in Hin|done].
  - change (foldl (unsubscribe_topic c) tps (v :: items))
      with (foldl (unsubscribe_topic c) (unsubscribe_topic c tps v) items).
    rewrite IH. destruct v as [| | |name| |]; try done. simpl.
    assert (Hstep : ∀ T', (match tps !! name with
                           | Some subs => <[name := set_delete c subs]> tps
                           | None => tps
                           end) !! T'
                          = if decide (T' = name)
                            then set_delete c <$> tps !! T'
                            else tps !! T').
    { intros T'. destruct (tps !! name) as [subs|] eqn:Hname.
      - destruct (decide (T' = name)) as [->|Hne'].
        + by rewrite lookup_insert_eq, Hname.
        + by rewrite lookup_insert_ne.
      - destruct (decide (T' = name)) as [->|Hne']; [by rewrite Hname|done]. }
    rewrite Hstep. destruct (decide (T = name)) as [->|Hne].
    + rewrite (decide_True (P := name ∈ name :: topic_names items))
        by apply list_elem_of_here.
      destruct (decide (name ∈ topic_names items)); [|done].
      destruct (tps !! name); simpl; [|done].
      by rewrite set_delete_twice.
    + destruct (decide (T ∈ topic_names items)) as [Hin|Hin].
      * rewrite decide_True; [done | by apply list_elem_of_further].
      * rewrite decide_False; [done|]. intros [?|?]%elem_of_cons; done.
Qed.
End LoopFacts.

(** ** What one callback changes *)

Section Frames.
Context {S : Type} `{Channel S}.
Implicit Types (st : state S) (c : conn) (h : handle) (message : value).
Implicit Types (T : string).

(** The ways the router can return. *)
Lemma route_cases c h message st st' :
  route c h message st = Done st' →
  st' = st
  ∨ closed h = false
    ∧ ((∃ items, st' = subscribe c h items st)
       ∨ (∃ items, st' = unsubscribe c items st)
       ∨ st' = publish message st
       ∨ st' = send c (VObj [("type", VStr "pong")]) st).
Proof.
  unfold route.
  destruct (truthy message && truthy_prop message "type" && negb (closed h))
    eqn:Hguard; [|intros [= <-]; by left].
  apply andb_prop in Hguard as [_ Hopen%negb_true_iff].
  destruct (prop message "type") as [[| | |ty| |]|];
    try (intros [= <-]; by left).
  repeat case_match; intros [= <-]; eauto 8.
Qed.

Lemma subscribers_subscribe c h (items : list value) st T :
  subscribers (subscribe c h items st) T
  = if decide (T ∈ topic_names items)
    then set_add c (subscribers st T)
    else subscribers st T.
Proof. unfold subscribers, subscribe. simpl. apply subscribe_loop_lookup. Qed.

Lemma subscribers_unsubscribe c (items : list value) st T :
  subscribers (unsubscribe c items st) T
  = if decide (T ∈ topic_names items)
    then set_delete c (subscribers st T)
    else subscribers st T.
Proof.
  unfold subscribers, unsubscribe. simpl. rewrite unsubscribe_loop_lookup.
  destruct (decide _); [|done]. by destruct (topics st !! T).
Qed.

Lemma subscribers_publish message st T :
  subscribers (publish message st) T = subscribers st T.
Proof. unfold subscribers. by rewrite publish_topics. Qed.

Lemma subscribers_send c message st T :
  subscribers (send c message st) T = subscribers st T.
Proof. unfold subscribers. by rewrite send_topics. Qed.

(** The close loop, seen from another connection. *)
Lemma close_loop_other c c' (L : list string) (tps : gmap string (list conn))
    T :
  c' ≠ c →
  c' ∈ default [] (foldl (close_topic c) tps L !! T)
  ↔ c' ∈ default [] (tps !! T).
Proof.
  intros Hne. rewrite close_loop_lookup.
  destruct (decide (T ∈ L)); [|done].
  rewrite close_topic_lookup_eq.
  destruct (tps !! T) as [subs|]; simpl; [|done].
  destruct (Nat.eqb _ 0) eqn:Hsz; simpl.
  - apply Nat.eqb_eq in Hsz. unfold set_size in Hsz.
    apply length_zero_iff_nil in Hsz.
    rewrite elem_of_nil. split; [done|]. intros Hin.
    assert (c' ∈ set_delete c subs) as Hin' by (by apply elem_of_set_delete).
    rewrite Hsz in Hin'. by apply not_elem_of_nil in Hin'.
  - rewrite elem_of_set_delete. tauto.
Qed.

(** In a state that satisfies the invariant the close loop removes the
    connection from every set and leaves the sets otherwise as they
    were. *)
Lemma subscribers_onclose c h st T :
  inv st → handles st !! c = Some h →
  subscribers (onclose c h st) T = set_delete c (subscribers st T).
Proof.
  intros Hinv Hh. unfold subscribers, onclose. simpl.
  rewrite close_loop_lookup.
  destruct (decide (T ∈ subscribedTopics h)) as [Hin|Hout].
  - rewrite close_topic_lookup_eq.
    destruct (topics st !! T) as [subs|]; simpl; [|done].
    destruct (Nat.eqb _ 0) eqn:Hsz; simpl; [|done].
    apply Nat.eqb_eq in Hsz. unfold set_size in Hsz.
    by apply length_zero_iff_nil in Hsz.
  - destruct (topics st !! T) as [subs|] eqn:HT; simpl; [|done].
    rewrite set_delete_absent; [done|]. intros Hin.
    destruct (inv_member _ _ Hinv _ _ _ HT Hin) as (h' & Hh' & Hl).
    congruence.
Qed.

Lemma step_handles_other st (ev : event S) st' c' :
  step st ev = Some (Done st') → event_conn ev ≠ c' →
  handles st' !! c' = handles st !! c'.
Proof.
  destruct ev as [c|c m|c|c|c|c s]; simpl; intros Hstep Hne;
    [destruct (handles st !! c) as [h|] eqn:Hh; try done..|].
  - injection Hstep as <-. simpl. by rewrite lookup_insert_ne.
  - destruct m as [|message|]; simpl in Hstep; [done| |by injection Hstep as <-].
    injection Hstep as Hr.
    apply route_cases in Hr
      as [->|[_ [[items ->]|[[items ->]|[->| ->]]]]]; simpl;
      rewrite ?publish_handles, ?send_handles, ?lookup_insert_ne; done.
  - injection Hstep as <-. simpl. by rewrite lookup_insert_ne.
  - injection Hstep as <-. simpl. by rewrite lookup_insert_ne.
  - destruct (pingInterval h); [|done]. injection Hstep as <-.
    rewrite ontick_handles. by rewrite lookup_insert_ne.
  - by injection Hstep as <-.
Qed.

Lemma step_members_other st (ev : event S) st' c' T :
  step st ev = Some (Done st') → event_conn ev ≠ c' →
  c' ∈ subscribers st' T ↔ c' ∈ subscribers st T.
Proof.
  destruct ev as [c|c m|c|c|c|c s]; simpl; intros Hstep Hne;
    [destruct (handles st !! c) as [h|] eqn:Hh; try done..|].
  - by injection Hstep as <-.
  - destruct m as [|message|]; simpl in Hstep; [done| |by injection Hstep as <-].
    injection Hstep as Hr.
    apply route_cases in Hr
      as [->|[_ [[items ->]|[[items ->]|[->| ->]]]]]; [done|..].
    + rewrite subscribers_subscribe. destruct (decide _); [|done].
      rewrite elem_of_set_add. split; [intros [?|?]|]; [done|done|auto].
    + rewrite subscribers_unsubscribe. destruct (decide _); [|done].
      rewrite elem_of_set_delete. split; [tauto|]. intros ?; split; congruence.
    + by rewrite subscribers_publish.
    + by rewrite subscribers_send.
  - by injection Hstep as <-.
  - injection Hstep as <-. unfold subscribers, onclose. simpl.
    by apply close_loop_other.
  - destruct (pingInterval h); [|done]. injection Hstep as <-.
    unfold subscribers. by rewrite ontick_topics.
  - by injection Hstep as <-.
Qed.

Lemma reachable_step st (ev : event S) st' :
  reachable st → step st ev = Some (Done st') → reachable st'.
Proof.
  intros (sk & evs & Hrun) Hstep. exists sk, (evs ++ [ev]).
  revert Hrun. generalize (init sk). induction evs as [|e evs IH];
    intros st0; simpl.
  - intros [= ->]. by rewrite Hstep.
  - destruct (step st0 e) as [[st1|]|]; [|done..]. apply IH.
Qed.
End Frames.

(** ** Calls only grow, and on whom they are made *)

Section CallFacts.
Context {S : Type} `{Channel S}.
Implicit Types (st : state S) (c : conn) (h : handle) (message : value).

Lemma send_calls_on c message st :
  ∃ new, calls (send c message st) = calls st ++ new
         ∧ Forall (λ k, call_conn k = c) new.
Proof.
  eexists. split; [apply send_calls|].
  repeat (apply Forall_app; split); repeat case_match;
    repeat constructor.
Qed.

Lemma send_all_calls_on message (rs : list conn) st :
  ∃ new, calls (foldl (λ st' r, send r message st') st rs) = calls st ++ new
         ∧ Forall (λ k, call_conn k ∈ rs) new.
Proof.
  revert st. induction rs as [|r rs IH]; intros st; simpl.
  - exists []. by rewrite app_nil_r.
  - destruct (send_calls_on r message st) as (new1 & Hc1 & Hon1).
    destruct (IH (send r message st)) as (new2 & Hc2 & Hon2).
    exists (new1 ++ new2). split; [by rewrite Hc2, Hc1, app_assoc|].
    apply Forall_app. split.
    + eapply list.Forall_impl; [exact Hon1|]. intros k ->. apply list_elem_of_here.
    + eapply list.Forall_impl; [exact Hon2|]. intros k Hk.
      by apply list_elem_of_further.
Qed.

Lemma publish_calls_on message st :
  ∃ new, calls (publish message st) = calls st ++ new
         ∧ Forall (λ k, ∃ T, call_conn k ∈ subscribers st T) new.
Proof.
  unfold publish.
  destruct (prop message "topic") as [t|];
    [|exists []; by rewrite app_nil_r].
  destruct (truthy t); [|exists []; by rewrite app_nil_r].
  destruct t as [| | |T| |]; simpl;
    try (exists []; by rewrite app_nil_r).
  destruct (topics st !! T) as [receivers|] eqn:HT;
    [|exists []; by rewrite app_nil_r].
  destruct (send_all_calls_on
              (set_prop "clients"
                 (VNum (inject_Z (Z.of_nat (set_size receivers)))) message)
              receivers st) as (new & Hc & Hon).
  exists new. split; [done|]. eapply list.Forall_impl; [exact Hon|].
  intros k Hk. exists T. unfold subscribers. by rewrite HT.
Qed.

(** The sends of a publish to a topic with a name that is not empty. *)
Lemma publish_sends message T st :
  prop message "topic" = Some (VStr T) → T ≠ "" →
  sends_of (calls (publish message st))
  = sends_of (calls st)
    ++ map (λ r, (r, set_prop "clients"
                       (VNum (inject_Z (Z.of_nat (set_size (subscribers st T)))))
                       message))
           (subscribers st T).
Proof.
  intros Hto HT. unfold publish. rewrite Hto. simpl.
  apply String.eqb_neq in HT as ->. simpl. unfold subscribers.
  destruct (topics st !! T) as [subs|]; simpl.
  - apply send_all_sends.
  - by rewrite app_nil_r.
Qed.

Lemma ontick_calls_on c h st :
  ∃ new, calls (ontick c h st) = calls st ++ new
         ∧ Forall (λ k, call_conn k = c) new.
Proof.
  unfold ontick. destruct (negb (pongReceived h)); simpl.
  - eexists. split; [done|]. by repeat constructor.
  - destruct (ch_ping (socks st c)) as [s' [|]]; simpl.
    + exists [CallPing c; CallClose c]. split; [by rewrite <- app_assoc|].
      by repeat constructor.
    + exists [CallPing c]. split; [done|]. by repeat constructor.
Qed.

(** The calls one event adds are made on the connection of the event or
    on a connection that is subscribed to some topic when the event
    arrives. *)
Lemma step_calls_on st (ev : event S) st' :
  step st ev = Some (Done st') →
  ∃ new, calls st' = calls st ++ new
         ∧ Forall (λ k, call_conn k = event_conn ev
                        ∨ ∃ T, call_conn k ∈ subscribers st T) new.
Proof.
  assert (Hnone : ∀ c, ∃ new, calls st = calls st ++ new
            ∧ Forall (λ k, call_conn k = c
                           ∨ ∃ T, call_conn k ∈ subscribers st T) new).
  { intros c. exists []. by rewrite app_nil_r. }
  destruct ev as [c|c m|c|c|c|c s]; simpl; intros Hstep;
    [destruct (handles st !! c) as [h|] eqn:Hh; try done..|].
  - injection Hstep as <-. apply Hnone.
  - destruct m as [|message|]; simpl in Hstep;
      [done| |injection Hstep as <-; apply Hnone].
    injection Hstep as Hr.
    apply route_cases in Hr
      as [->|[_ [[items ->]|[[items ->]|[->| ->]]]]];
      [apply Hnone..| |].
    + destruct (publish_calls_on message st) as (new & Hc & Hon).
      exists new. split; [done|]. eapply list.Forall_impl; [exact Hon|]. eauto.
    + destruct (send_calls_on c (VObj [("type", VStr "pong")]) st)
        as (new & Hc & Hon).
      exists new. split; [done|]. eapply list.Forall_impl; [exact Hon|]. eauto.
  - injection Hstep as <-. apply Hnone.
  - injection Hstep as <-. apply Hnone.
  - destruct (pingInterval h); [|done]. injection Hstep as <-.
    destruct (ontick_calls_on c h st) as (new & Hc & Hon).
    exists new. split; [done|]. eapply list.Forall_impl; [exact Hon|]. eauto.
  - injection Hstep as <-. apply Hnone.
Qed.
End CallFacts.

(** ** More invariants of the runs *)

Section RunFacts.
Context {S : Type} `{Channel S}.
Implicit Types (st : state S) (c : conn) (h : handle) (message : value).
Implicit Types (T : string).

Lemma subscribe_loop_is_Some c acc (items : list value) T :
  is_Some ((foldl (subscribe_topic c) acc items).1 !! T)
  ↔ is_Some (acc.1 !! T) ∨ T ∈ topic_names items.
Proof.
  revert acc. induction items as [|v items IH]; intros acc.
  - simpl. rewrite elem_of_nil. tauto.
  - change (foldl (subscribe_topic c) acc (v :: items))
      with (foldl (subscribe_topic c) (subscribe_topic c acc v) items).
    rewrite IH. destruct v as [| | |name| |]; try done.
    destruct acc as [tps subd]. simpl. rewrite elem_of_cons.
    destruct (decide (T = name)) as [->|Hne].
    + rewrite lookup_insert_eq. split; [auto|]. intros _. left. eauto.
    + rewrite lookup_insert_ne by done. split; [tauto|].
      intros [?|[?|?]]; auto; done.
Qed.

Lemma run_reachable st (evs : list (event S)) st' :
  reachable st → run st evs = Some (Done st') → reachable st'.
Proof.
  revert st. induction evs as [|ev evs IH]; intros st Hreach; simpl.
  - by intros [= <-].
  - destruct (step st ev) as [[st1|]|] eqn:Hstep; [|done..].
    apply IH. by eapply reachable_step.
Qed.

Lemma step_entries_listed st (ev : event S) st' :
  inv st → entries_listed st → step st ev = Some (Done st') →
  entries_listed st'.
Proof.
  intros Hinv Hlisted.
  assert (Hflags : ∀ c h h', handles st !! c = Some h →
            subscribedTopics h' = subscribedTopics h →
            ∀ T subs, topics st !! T = Some subs →
              ∃ c0 h0, <[c := h']> (handles st) !! c0 = Some h0
                       ∧ T ∈ subscribedTopics h0).
  { intros c h h' Hh Hsame T subs HT.
    destruct (Hlisted T subs HT) as (c0 & h0 & Hh0 & Hl).
    destruct (decide (c0 = c)) as [->|Hne].
    - exists c, h'. rewrite lookup_insert_eq. split; [done|]. congruence.
    - exists c0, h0. by rewrite lookup_insert_ne. }
  destruct ev as [c|c m|c|c|c|c s]; simpl; intros Hstep;
    [destruct (handles st !! c) as [h|] eqn:Hh; try done..|].
  - injection Hstep as <-. intros T subs HT. simpl in *.
    destruct (Hlisted T subs HT) as (c0 & h0 & Hh0 & Hl).
    exists c0, h0. rewrite lookup_insert_ne by congruence. done.
  - destruct m as [|message|]; simpl in Hstep;
      [done| |by injection Hstep as <-].
    injection Hstep as Hr.
    apply route_cases in Hr
      as [->|[_ [[items ->]|[[items ->]|[->| ->]]]]]; [done|..].
    + intros T subs HT. unfold subscribe in *. simpl in *.
      assert (is_Some ((foldl (subscribe_topic c)
                          (topics st, subscribedTopics h) items).1 !! T))
        as [Hold|Hnew]%subscribe_loop_is_Some by eauto.
      * destruct Hold as [subs0 Hsubs0]. simpl in Hsubs0.
        destruct (Hlisted T subs0 Hsubs0) as (c0 & h0 & Hh0 & Hl).
        destruct (decide (c0 = c)) as [->|Hne].
        -- eexists c, _. rewrite lookup_insert_eq. split; [done|]. simpl.
           apply subscribe_loop_listed. left. simpl. congruence.
        -- exists c0, h0. by rewrite lookup_insert_ne.
      * eexists c, _. rewrite lookup_insert_eq. split; [done|]. simpl.
        apply subscribe_loop_listed. by right.
    + intros T subs HT. unfold unsubscribe in *. simpl in *.
      rewrite unsubscribe_loop_lookup in HT.
      destruct (topics st !! T) as [subs0|] eqn:HT0;
        [by eapply Hlisted|].
      by destruct (decide _).
    + intros T subs. rewrite publish_topics, publish_handles. apply Hlisted.
    + intros T subs. rewrite send_topics, send_handles. apply Hlisted.
  - injection Hstep as <-. intros T subs HT. simpl in *.
    by eapply (Hflags c h).
  - injection Hstep as <-. intros T subs' HT. unfold onclose in *.
    simpl in *. rewrite close_loop_lookup in HT.
    destruct (decide (T ∈ subscribedTopics h)) as [Hin|Hout].
    + apply close_topic_lookup_Some in HT as (subs & HT & -> & Hne).
      destruct (set_delete c subs) as [|c' rest] eqn:Hsd; [done|].
      assert (c' ∈ set_delete c subs) as [Hc' Hin']%elem_of_set_delete
        by (rewrite Hsd; apply list_elem_of_here).
      destruct (inv_member _ _ Hinv _ _ _ HT Hin') as (h' & Hh' & Hl).
      exists c', h'. by rewrite lookup_insert_ne.
    + destruct (Hlisted T subs' HT) as (c0 & h0 & Hh0 & Hl).
      exists c0, h0. rewrite lookup_insert_ne; [done|]. congruence.
  - destruct (pingInterval h); [|done]. injection Hstep as <-.
    intros T subs. rewrite ontick_topics, ontick_handles. intros HT.
    eapply (Hflags c h); [done| |done]. by destruct (pongReceived h).
  - by injection Hstep as <-.
Qed.

Lemma reachable_entries_listed st : reachable st → entries_listed st.
Proof.
  intros (sk & evs & Hrun).
  assert (Hgen : ∀ st0, inv st0 → entries_listed st0 →
            run st0 evs = Some (Done st) → entries_listed st).
  { clear Hrun. induction evs as [|ev evs IH]; intros st0 Hinv Hl; simpl.
    - by intros [= <-].
    - destruct (step st0 ev) as [[st1|]|] eqn:Hstep; [|done..].
      apply IH; eauto using step_inv, step_entries_listed. }
  eapply (Hgen (init sk)); [apply inv_on_empty| |done].
  intros T subs HT. simpl in HT. by rewrite lookup_empty in HT.
Qed.

(** The closed flag of a connection is never reset. *)
Lemma step_closed_kept st (ev : event S) st' c h :
  step st ev = Some (Done st') → handles st !! c = Some h →
  closed h = true →
  ∃ h', handles st' !! c = Some h' ∧ closed h' = true.
Proof.
  intros Hstep Hh Hcl.
  destruct (decide (event_conn ev = c)) as [<-|Hne];
    [|exists h; by rewrite (step_handles_other _ _ _ _ Hstep Hne)].
  destruct ev as [c|c m|c|c|c|c s]; simpl in *; rewrite ?Hh in Hstep.
  - done.
  - destruct m as [|message|]; simpl in Hstep; [done| |].
    + rewrite route_closed in Hstep by done. injection Hstep as <-. eauto.
    + injection Hstep as <-. eauto.
  - injection Hstep as <-. simpl. rewrite lookup_insert_eq. eauto.
  - injection Hstep as <-. simpl. rewrite lookup_insert_eq. eauto.
  - destruct (pingInterval h); [|done]. injection Hstep as <-.
    rewrite ontick_handles, lookup_insert_eq. eexists. split; [done|].
    by destruct (pongReceived h).
  - injection Hstep as <-. eauto.
Qed.

(** A timer is cleared only by the tick that also calls [close()]. *)
Lemma step_timer st (ev : event S) st' :
  (∀ c h, handles st !! c = Some h → pingInterval h = false →
          CallClose c ∈ calls st) →
  step st ev = Some (Done st') →
  ∀ c h, handles st' !! c = Some h → pingInterval h = false →
         CallClose c ∈ calls st'.
Proof.
  intros Hold Hstep c h' Hh' Htimer.
  destruct (step_calls_on _ _ _ Hstep) as (new & Hcalls & _).
  rewrite Hcalls, elem_of_app.
  destruct (decide (event_conn ev = c)) as [<-|Hne];
    [|left; rewrite (step_handles_other _ _ _ _ Hstep Hne) in Hh'; eauto].
  destruct ev as [c|c m|c|c|c|c s]; simpl in *;
    [destruct (handles st !! c) as [h|] eqn:Hh; try done..|].
  - injection Hstep as <-. simpl in Hh'. rewrite lookup_insert_eq in Hh'.
    by injection Hh' as <-.
  - destruct m as [|message|]; simpl in Hstep;
      [done| |injection Hstep as <-; left; eapply Hold; eauto].
    injection Hstep as Hr.
    apply route_cases in Hr
      as [->|[_ [[items ->]|[[items ->]|[->| ->]]]]];
      rewrite ?publish_handles, ?send_handles in Hh'; simpl in Hh';
      rewrite ?lookup_insert_eq in Hh';
      try (left; eapply Hold; by eauto).
    injection Hh' as <-. left. by eapply Hold.
  - injection Hstep as <-. simpl in Hh'. rewrite lookup_insert_eq in Hh'.
    injection Hh' as <-. left. by eapply Hold.
  - injection Hstep as <-. simpl in Hh'. rewrite lookup_insert_eq in Hh'.
    injection Hh' as <-. left. by eapply Hold.
  - destruct (pingInterval h) eqn:Harmed; [|done]. injection Hstep as <-.
    rewrite ontick_handles, lookup_insert_eq in Hh'. injection Hh' as <-.
    right. unfold ontick in Hcalls.
    destruct (pongReceived h); simpl in *; [congruence|].
    apply app_inv_head in Hcalls as <-. apply list_elem_of_here.
  - injection Hstep as <-. left. by eapply Hold.
Qed.
End RunFacts.

(** * Further theorems *)

Section Further.
Context {S : Type} `{Channel S}.
Implicit Types (st : state S) (c : conn) (h : handle) (message : value).
Implicit Types (T : string).

(** X1. In every reachable state a member of a subscriber set is an
    accepted connection whose closed flag is not set and whose
    [subscribedTopics] holds the topic, and no set holds a connection
    twice. *)
Theorem subscriber_is_open_and_listed st T c :
  reachable st → c ∈ subscribers st T →
  NoDup (subscribers st T)
  ∧ ∃ h, handles st !! c = Some h ∧ closed h = false
         ∧ T ∈ subscribedTopics h.
Proof.
  intros Hinv%reachable_inv Hin. unfold subscribers in *.
  destruct (topics st !! T) as [subs|] eqn:HT; simpl in *;
    [|by apply not_elem_of_nil in Hin].
  split; [by eapply inv_nodup|].
  destruct (inv_member _ _ Hinv _ _ _ HT Hin) as (h & Hh & Hl).
  exists h. split_and!; [done| |done].
  destruct (closed h) eqn:Hcl; [|done].
  rewrite (inv_closed _ _ Hinv _ _ Hh Hcl) in Hl.
  by apply not_elem_of_nil in Hl.
Qed.

(** X2. The close callback, in a reachable state: it takes the connection
    out of every subscriber set and leaves the order of the others,
    deletes the topics the connection was the only subscriber of, sets
    the closed flag, empties [subscribedTopics], keeps the pong flag and
    the timer as they are, and calls nothing on any channel. *)
Theorem close_unwinds_registry c h st :
  reachable st → handles st !! c = Some h →
  ∃ st' h', step st (Close c) = Some (Done st')
    ∧ (∀ T, subscribers st' T = set_delete c (subscribers st T))
    ∧ (∀ T, topics st !! T = Some [c] → topics st' !! T = None)
    ∧ handles st' !! c = Some h'
    ∧ closed h' = true ∧ subscribedTopics h' = []
    ∧ pongReceived h' = pongReceived h ∧ pingInterval h' = pingInterval h
    ∧ calls st' = calls st.
Proof.
  intros Hinv%reachable_inv Hh.
  exists (onclose c h st), (set_closed true (set_subscribedTopics [] h)).
  split; [simpl; by rewrite Hh|].
  split; [intros T; by apply subscribers_onclose|].
  split; [intros T HT; simpl; by eapply close_loop_only_subscriber|].
  split; [simpl; apply lookup_insert_eq|done].
Qed.

(** X3. Closing is idempotent: a second close event of the same
    connection leaves the state that the first one made. *)
Theorem close_twice c h st :
  handles st !! c = Some h →
  ∃ st1, step st (Close c) = Some (Done st1)
         ∧ step st1 (Close c) = Some (Done st1).
Proof.
  intros Hh. exists (onclose c h st). split; [simpl; by rewrite Hh|].
  simpl. rewrite lookup_insert_eq. do 2 f_equal.
  unfold onclose, set_handle, set_topics. simpl.
  by rewrite insert_insert_eq.
Qed.

(** X4. A ping message on a connection that is not closed is answered by
    one [send] of the pong object to that same connection: every call the
    callback makes is on the sender, and the registry and the closures
    stay as they are. *)
Theorem ping_elicits_pong c h message st :
  handles st !! c = Some h → closed h = false →
  prop message "type" = Some (VStr "ping") →
  ∃ st' new,
    step st (Message c (Parsed message)) = Some (Done st')
    ∧ sends_of (calls st') = sends_of (calls st) ++ [(c, pong_msg)]
    ∧ calls st' = calls st ++ new ∧ Forall (λ k, call_conn k = c) new
    ∧ topics st' = topics st ∧ handles st' = handles st.
Proof.
  intros Hh Hopen Hty.
  destruct (send_calls_on c pong_msg st) as (new & Hcalls & Hon).
  exists (send c pong_msg st), new.
  split; [by eapply step_ping|]. split; [apply send_sends|].
  split; [done|]. split; [done|].
  split; [apply send_topics | apply send_handles].
Qed.

(** X5. Entries of [topics] that are not strings are skipped by both
    loops: a subscribe and an unsubscribe do what they do for the array
    of the string entries alone. *)
Theorem non_string_topics_skipped c h (items : list value) st :
  subscribe c h items st = subscribe c h (VStr <$> topic_names items) st
  ∧ unsubscribe c items st
    = unsubscribe c (VStr <$> topic_names items) st.
Proof.
  unfold subscribe, unsubscribe.
  by rewrite <- subscribe_loop_names, <- unsubscribe_loop_names.
Qed.

(** X6. Unsubscribing from topics the connection is not subscribed to,
    known to the registry or not, changes nothing. *)
Theorem unsubscribe_not_joined c h message (items : list value) st :
  handles st !! c = Some h → closed h = false →
  prop message "type" = Some (VStr "unsubscribe") →
  topics_array message = Some items →
  (∀ T, T ∈ topic_names items → c ∉ subscribers st T) →
  step st (Message c (Parsed message)) = Some (Done st).
Proof.
  intros Hh Hopen Hty Hitems Hout.
  erewrite step_unsubscribe by done. do 2 f_equal.
  unfold unsubscribe, set_topics.
  assert (foldl (unsubscribe_topic c) (topics st) items = topics st) as ->;
    [|by destruct st].
  apply map_eq. intros T. rewrite unsubscribe_loop_lookup.
  destruct (decide (T ∈ topic_names items)) as [Hin|]; [|done].
  specialize (Hout T Hin). unfold subscribers in Hout.
  destruct (topics st !! T) as [subs|]; simpl in *; [|done].
  by rewrite set_delete_absent.
Qed.

(** X7. What an unsubscribe does to the sets: the sender leaves the set
    of every topic named by a string entry, the other members keep their
    order, the other topics keep their sets, and nothing is called on any
    channel. *)
Theorem unsubscribe_removes_sender c h message (items : list value) st :
  handles st !! c = Some h → closed h = false →
  prop message "type" = Some (VStr "unsubscribe") →
  topics_array message = Some items →
  ∃ st', step st (Message c (Parsed message)) = Some (Done st')
    ∧ (∀ T, subscribers st' T
            = if decide (T ∈ topic_names items)
              then set_delete c (subscribers st T)
              else subscribers st T)
    ∧ calls st' = calls st.
Proof.
  intros Hh Hopen Hty Hitems. exists (unsubscribe c items st).
  split; [by eapply step_unsubscribe|].
  split; [intros T; apply subscribers_unsubscribe|done].
Qed.

(** X8. What a subscribe does: the sender joins the set of every topic
    named by a string entry, at the end when it was not a member, the
    other topics keep their sets, [subscribedTopics] gains those names,
    and nothing is called on any channel: there is no acknowledgement. *)
Theorem subscribe_adds_sender c h message (items : list value) st :
  handles st !! c = Some h → closed h = false →
  prop message "type" = Some (VStr "subscribe") →
  topics_array message = Some items →
  ∃ st' h',
    step st (Message c (Parsed message)) = Some (Done st')
    ∧ handles st' !! c = Some h'
    ∧ (∀ T, subscribers st' T
            = if decide (T ∈ topic_names items)
              then set_add c (subscribers st T)
              else subscribers st T)
    ∧ (∀ T, T ∈ subscribedTopics h'
            ↔ T ∈ subscribedTopics h ∨ T ∈ topic_names items)
    ∧ calls st' = calls st.
Proof.
  intros Hh Hopen Hty Hitems. eexists (subscribe c h items st), _.
  split; [by eapply step_subscribe|].
  split; [simpl; apply lookup_insert_eq|].
  split; [intros T; apply subscribers_subscribe|].
  split; [|done]. intros T. simpl. apply subscribe_loop_listed.
Qed.
End Further.

Section Composition.
Context {S : Type} `{Channel S}.
Implicit Types (st : state S) (c : conn) (h : handle) (message : value).
Implicit Types (T : string).

Lemma sends_to_none c message (l : list conn) :
  c ∉ l → filter (λ p, p.1 = c) (map (λ r, (r, message)) l) = [].
Proof.
  induction l as [|r l IH]; [done|].
  intros [Hne Hl]%not_elem_of_cons. simpl.
  rewrite filter_cons, decide_False by (simpl; congruence). auto.
Qed.

Lemma sends_to_one c message (l : list conn) :
  NoDup l → c ∈ l →
  filter (λ p, p.1 = c) (map (λ r, (r, message)) l) = [(c, message)].
Proof.
  induction l as [|r l IH]; intros Hnd Hin;
    [by apply not_elem_of_nil in Hin|].
  apply list.NoDup_cons in Hnd as [Hr Hnd]. simpl.
  destruct (decide (r = c)) as [->|Hne].
  - rewrite filter_cons, decide_True by done.
    by rewrite sends_to_none.
  - rewrite filter_cons, decide_False by (simpl; congruence).
    apply IH; [done|]. apply elem_of_cons in Hin as [?|?]; congruence.
Qed.

Lemma publish_sends_to message T st :
  prop message "topic" = Some (VStr T) →
  ∃ news, sends_of (calls (publish message st)) = sends_of (calls st) ++ news
          ∧ ∀ p, p ∈ news → p.1 ∈ subscribers st T.
Proof.
  intros Hto. destruct (decide (T = "")) as [->|HT].
  - exists []. unfold publish. rewrite Hto. simpl.
    split; [by rewrite app_nil_r|]. intros p Hp.
    by apply not_elem_of_nil in Hp.
  - eexists. split; [by apply publish_sends|].
    intros p (r & -> & Hr)%list_elem_of_fmap. done.
Qed.

(** X9. Subscribe, then publish: once a connection has subscribed to a
    topic whose name is not empty, a publish to that topic by any
    connection that is not closed sends the published message to it,
    once: the object sent is the message with [clients] set to the size
    of the set, its other properties as they were. *)
Theorem subscribed_connection_receives c h c2 h2 message T st :
  reachable st →
  handles st !! c = Some h → closed h = false →
  handles st !! c2 = Some h2 → closed h2 = false →
  prop message "type" = Some (VStr "publish") →
  prop message "topic" = Some (VStr T) → T ≠ "" →
  ∃ st1 st2 news message',
    step st (Message c (Parsed (subscribe_msg [VStr T]))) = Some (Done st1)
    ∧ step st1 (Message c2 (Parsed message)) = Some (Done st2)
    ∧ sends_of (calls st2) = sends_of (calls st) ++ news
    ∧ filter (λ p, p.1 = c) news = [(c, message')]
    ∧ message'
      = set_prop "clients"
          (VNum (inject_Z (Z.of_nat (set_size (subscribers st1 T)))))
          message
    ∧ prop message' "clients"
      = Some (VNum (inject_Z (Z.of_nat (set_size (subscribers st1 T)))))
    ∧ (∀ k, k ≠ "clients" → prop message' k = prop message k)
    ∧ c ∈ subscribers st1 T.
Proof.
  intros Hreach Hh Hopen Hh2 Hopen2 Hty Hto HT.
  assert (Hs1 : step st (Message c (Parsed (subscribe_msg [VStr T])))
                = Some (Done (subscribe c h [VStr T] st)))
    by (by eapply step_subscribe).
  pose proof (reachable_step _ _ _ Hreach Hs1) as Hreach1.
  assert (Hin : c ∈ subscribers (subscribe c h [VStr T] st) T).
  { rewrite subscribers_subscribe. simpl.
    rewrite decide_True by apply list_elem_of_here.
    apply elem_of_set_add. by left. }
  exists (subscribe c h [VStr T] st), (publish message (subscribe c h [VStr T] st)).
  eexists _, _. split; [done|]. split.
  { destruct (decide (c2 = c)) as [->|Hne].
    - eapply step_publish; [apply lookup_insert_eq| |done]. simpl. done.
    - eapply step_publish; [|exact Hopen2|done]. simpl.
      by rewrite lookup_insert_ne. }
  split;
    [exact (publish_sends message T (subscribe c h [VStr T] st) Hto HT)|].
  split.
  { apply sends_to_one; [|done].
    apply reachable_inv in Hreach1. unfold subscribers.
    destruct (topics _ !! T) as [subs|] eqn:Hsubs; simpl;
      [by eapply inv_nodup | apply NoDup_nil_2]. }
  split; [done|]. split.
  { destruct (prop_object _ _ _ Hty) as [fields ->]. apply assoc_assign_eq. }
  split; [|done]. intros k Hk. by apply prop_set_prop_ne.
Qed.

(** X10. Unsubscribe, then publish: after a connection has unsubscribed
    from a topic, a publish to that topic sends nothing to it. *)
Theorem unsubscribed_connection_skipped c h c2 h2 message T st :
  handles st !! c = Some h → closed h = false →
  handles st !! c2 = Some h2 → closed h2 = false →
  prop message "type" = Some (VStr "publish") →
  prop message "topic" = Some (VStr T) →
  ∃ st1 st2 news,
    step st (Message c (Parsed (unsubscribe_msg [VStr T]))) = Some (Done st1)
    ∧ step st1 (Message c2 (Parsed message)) = Some (Done st2)
    ∧ sends_of (calls st2) = sends_of (calls st) ++ news
    ∧ ∀ p, p ∈ news → p.1 ≠ c.
Proof.
  intros Hh Hopen Hh2 Hopen2 Hty Hto.
  destruct (publish_sends_to message T (unsubscribe c [VStr T] st) Hto)
    as (news & Hsends & Hmem).
  exists (unsubscribe c [VStr T] st),
    (publish message (unsubscribe c [VStr T] st)), news.
  split; [by eapply step_unsubscribe|].
  split; [by eapply step_publish|]. split; [done|].
  intros p Hp Heq. apply Hmem in Hp. rewrite Heq in Hp.
  rewrite subscribers_unsubscribe in Hp. simpl in Hp.
  rewrite decide_True in Hp by apply list_elem_of_here.
  apply elem_of_set_delete in Hp. tauto.
Qed.

(** X11. Subscribe, then unsubscribe: for a connection that was not
    subscribed to the topic, the two messages give every topic the
    subscriber set it had, and call nothing. *)
Theorem subscribe_then_unsubscribe c h T st :
  handles st !! c = Some h → closed h = false → c ∉ subscribers st T →
  ∃ st1 st2,
    step st (Message c (Parsed (subscribe_msg [VStr T]))) = Some (Done st1)
    ∧ step st1 (Message c (Parsed (unsubscribe_msg [VStr T])))
      = Some (Done st2)
    ∧ (∀ T', subscribers st2 T' = subscribers st T')
    ∧ calls st2 = calls st.
Proof.
  intros Hh Hopen Hout.
  exists (subscribe c h [VStr T] st),
    (unsubscribe c [VStr T] (subscribe c h [VStr T] st)).
  split; [by eapply step_subscribe|]. split.
  { eapply step_unsubscribe; [apply lookup_insert_eq|done..]. }
  split; [|done]. intros T'.
  rewrite subscribers_unsubscribe, subscribers_subscribe.
  destruct (decide _) as [Hin|]; [|done].
  apply list_elem_of_singleton in Hin as ->.
  by apply set_delete_add_absent.
Qed.
End Composition.

Section CallTargets.
Context {S : Type} `{Channel S}.
Implicit Types (st : state S) (c : conn) (h : handle) (message : value).

(** The calls of the publish branch are made on members of the set of
    the topic that the message names. *)
Lemma publish_calls_topic message st :
  ∃ new, calls (publish message st) = calls st ++ new
         ∧ Forall (λ k, ∃ T, prop message "topic" = Some (VStr T)
                             ∧ call_conn k ∈ subscribers st T) new.
Proof.
  unfold publish.
  destruct (prop message "topic") as [t|] eqn:Hto;
    [|exists []; by rewrite app_nil_r].
  destruct (truthy t); [|exists []; by rewrite app_nil_r].
  destruct t as [| | |T| |]; simpl;
    try (exists []; by rewrite app_nil_r).
  destruct (topics st !! T) as [receivers|] eqn:HT;
    [|exists []; by rewrite app_nil_r].
  destruct (send_all_calls_on
              (set_prop "clients"
                 (VNum (inject_Z (Z.of_nat (set_size receivers)))) message)
              receivers st) as (new & Hc & Hon).
  exists new. split; [done|]. eapply list.Forall_impl; [exact Hon|].
  intros k Hk. exists T. split; [done|]. unfold subscribers. by rewrite HT.
Qed.

Lemma route_calls_topic c h message st st' :
  route c h message st = Done st' →
  ∃ new, calls st' = calls st ++ new
         ∧ Forall (λ k, call_conn k = c
                        ∨ ∃ T, prop message "type" = Some (VStr "publish")
                               ∧ prop message "topic" = Some (VStr T)
                               ∧ call_conn k ∈ subscribers st T) new.
Proof.
  assert (Hnone : ∃ new, calls st = calls st ++ new
            ∧ Forall (λ k, call_conn k = c
                ∨ ∃ T, prop message "type" = Some (VStr "publish")
                       ∧ prop message "topic" = Some (VStr T)
                       ∧ call_conn k ∈ subscribers st T) new).
  { exists []. by rewrite app_nil_r. }
  unfold route. destruct (_ && _ && _); [|by intros [= <-]].
  destruct (prop message "type") as [[| | |ty| |]|] eqn:Hty;
    try (by intros [= <-]).
  destruct (String.eqb ty "subscribe");
    [destruct (topics_array message); [by intros [= <-]|done]|].
  destruct (String.eqb ty "unsubscribe");
    [destruct (topics_array message); [by intros [= <-]|done]|].
  destruct (String.eqb ty "publish") eqn:Hpub.
  - apply String.eqb_eq in Hpub as ->. intros [= <-].
    destruct (publish_calls_topic message st) as (new & Hc & Hon).
    exists new. split; [done|]. eapply list.Forall_impl; [exact Hon|].
    intros k (T & ? & ?). right. eauto.
  - destruct (String.eqb ty "ping"); intros [= <-]; [|done].
    destruct (send_calls_on c (VObj [("type", VStr "pong")]) st)
      as (new & Hc & Hon).
    exists new. split; [done|]. eapply list.Forall_impl; [exact Hon|]. eauto.
Qed.

(** Only a publish calls a connection other than the one of the event,
    and then a member of the set of the published topic. *)
Lemma step_calls_topic st (ev : event S) st' :
  step st ev = Some (Done st') →
  ∃ new, calls st' = calls st ++ new
         ∧ Forall (λ k, call_conn k = event_conn ev
              ∨ ∃ message T,
                  ev = Message (event_conn ev) (Parsed message)
                  ∧ prop message "type" = Some (VStr "publish")
                  ∧ prop message "topic" = Some (VStr T)
                  ∧ call_conn k ∈ subscribers st T) new.
Proof.
  assert (Hnone : ∃ new, calls st = calls st ++ new
            ∧ Forall (λ k, call_conn k = event_conn ev
                ∨ ∃ message T,
                    ev = Message (event_conn ev) (Parsed message)
                    ∧ prop message "type" = Some (VStr "publish")
                    ∧ prop message "topic" = Some (VStr T)
                    ∧ call_conn k ∈ subscribers st T) new).
  { exists []. by rewrite app_nil_r. }
  destruct ev as [c|c m|c|c|c|c s]; simpl in *; intros Hstep;
    [destruct (handles st !! c) as [h|] eqn:Hh; try done..|].
  - by injection Hstep as <-.
  - destruct m as [|message|]; simpl in Hstep;
      [done| |by injection Hstep as <-].
    injection Hstep as Hr.
    destruct (route_calls_topic _ _ _ _ _ Hr) as (new & Hc & Hon).
    exists new. split; [done|]. eapply list.Forall_impl; [exact Hon|].
    intros k [?|(T & ? & ? & ?)]; [by left|right]. eauto 6.
  - by injection Hstep as <-.
  - by injection Hstep as <-.
  - destruct (pingInterval h); [|done]. injection Hstep as <-.
    destruct (ontick_calls_on c h st) as (new & Hc & Hon).
    exists new. split; [done|]. eapply list.Forall_impl; [exact Hon|]. eauto.
  - by injection Hstep as <-.
Qed.
End CallTargets.

Section Lifecycle.
Context {S : Type} `{Channel S}.
Implicit Types (st : state S) (c : conn) (h : handle) (message : value).
Implicit Types (T : string).

(** X12. An event of one connection leaves every other connection alone:
    its closure variables (subscribed topics, closed flag, pong flag,
    timer) and its membership of every subscriber set are what they
    were. *)
Theorem event_leaves_other_connections st (ev : event S) st' c' :
  step st ev = Some (Done st') → event_conn ev ≠ c' →
  handles st' !! c' = handles st !! c'
  ∧ ∀ T, c' ∈ subscribers st' T ↔ c' ∈ subscribers st T.
Proof.
  intros Hstep Hne. split; [by eapply step_handles_other|].
  intros T. by eapply step_members_other.
Qed.

(** X13. The closed flag is final: whatever events follow, a closed
    connection stays closed, keeps an empty [subscribedTopics] and is
    never a member of a subscriber set again. *)
Theorem closed_is_final st (evs : list (event S)) st' c h :
  reachable st → handles st !! c = Some h → closed h = true →
  run st evs = Some (Done st') →
  ∃ h', handles st' !! c = Some h' ∧ closed h' = true
        ∧ subscribedTopics h' = [] ∧ ∀ T, c ∉ subscribers st' T.
Proof.
  intros Hreach Hh Hcl Hrun.
  assert (∃ h', handles st' !! c = Some h' ∧ closed h' = true)
    as (h' & Hh' & Hcl').
  { clear Hreach. revert st h Hh Hcl Hrun.
    induction evs as [|ev evs IH]; intros st h Hh Hcl; simpl.
    - intros [= <-]. eauto.
    - destruct (step st ev) as [[st1|]|] eqn:Hstep; [|done..].
      destruct (step_closed_kept _ _ _ _ _ Hstep Hh Hcl) as (h1 & Hh1 & Hcl1).
      by apply (IH st1 h1). }
  pose proof (reachable_inv _ (run_reachable _ _ _ Hreach Hrun)) as Hinv.
  exists h'. split_and!; [done..|by eapply inv_closed|].
  intros T Hin. unfold subscribers in Hin.
  destruct (topics st' !! T) as [subs|] eqn:HT; simpl in Hin;
    [|by apply not_elem_of_nil in Hin].
  destruct (inv_member _ _ Hinv _ _ _ HT Hin) as (h1 & Hh1 & Hl).
  assert (h1 = h') as -> by congruence.
  rewrite (inv_closed _ _ Hinv _ _ Hh' Hcl') in Hl.
  by apply not_elem_of_nil in Hl.
Qed.

(** X14. No entry of the registry is orphaned: in every reachable state a
    topic of the registry, with subscribers or without, is in the
    [subscribedTopics] of a connection that is not closed, whose close
    loop will visit it. So when every accepted connection has closed, the
    registry is empty. *)
Theorem topic_entries_are_listed st :
  reachable st →
  (∀ T subs, topics st !! T = Some subs →
     ∃ c h, handles st !! c = Some h ∧ closed h = false
            ∧ T ∈ subscribedTopics h)
  ∧ ((∀ c h, handles st !! c = Some h → closed h = true) → topics st = ∅).
Proof.
  intros Hreach.
  pose proof (reachable_inv _ Hreach) as Hinv.
  pose proof (reachable_entries_listed _ Hreach) as Hlisted.
  assert (Hopen : ∀ T subs, topics st !! T = Some subs →
            ∃ c h, handles st !! c = Some h ∧ closed h = false
                   ∧ T ∈ subscribedTopics h).
  { intros T subs HT. destruct (Hlisted T subs HT) as (c & h & Hh & Hl).
    exists c, h. split_and!; [done| |done].
    destruct (closed h) eqn:Hcl; [|done].
    rewrite (inv_closed _ _ Hinv _ _ Hh Hcl) in Hl.
    by apply not_elem_of_nil in Hl. }
  split; [done|]. intros Hall. apply map_eq. intros T.
  rewrite lookup_empty. destruct (topics st !! T) as [subs|] eqn:HT; [|done].
  destruct (Hopen T subs HT) as (c & h & Hh & Hcl & _).
  rewrite (Hall c h Hh) in Hcl. done.
Qed.

(** X15. Two ticks with no pong in between evict a connection: the first
    resets the flag and pings, the second makes [close()] its last call
    and clears the timer, which then never fires again. *)
Theorem two_silent_ticks_close c h st :
  handles st !! c = Some h → pingInterval h = true →
  pongReceived h = true →
  ∃ st2 h2 before,
    run st [Tick c; Tick c] = Some (Done st2)
    ∧ handles st2 !! c = Some h2 ∧ pingInterval h2 = false
    ∧ calls st2 = before ++ [CallClose c] ∧ CallPing c ∈ before
    ∧ step st2 (Tick c) = None.
Proof.
  intros Hh Harmed Hpong.
  set (st1 := ontick c h st).
  assert (Hh1 : handles st1 !! c = Some (set_pongReceived false h)).
  { unfold st1. by rewrite ontick_handles, Hpong, lookup_insert_eq. }
  exists (ontick c (set_pongReceived false h) st1),
    (set_pingInterval false (set_pongReceived false h)), (calls st1).
  split.
  { simpl. rewrite Hh, Harmed. fold st1. rewrite Hh1. simpl.
    by rewrite Harmed. }
  assert (Hh2 : handles (ontick c (set_pongReceived false h) st1) !! c
                = Some (set_pingInterval false (set_pongReceived false h))).
  { rewrite ontick_handles. simpl. apply lookup_insert_eq. }
  split; [done|]. split; [done|]. split; [done|].
  split.
  - unfold st1, ontick. rewrite Hpong. simpl.
    destruct (ch_ping (socks st c)) as [s' [|]]; simpl;
      rewrite !elem_of_app, ?list_elem_of_singleton; auto.
  - unfold step. by rewrite Hh2.
Qed.

(** X16. A message whose [type] is none of subscribe, unsubscribe, publish
    and ping is ignored, with no effect at all: a JSON value that is not
    an object, an object with no [type] or a falsy one, a [type] that is
    not a string, an unknown [type]; so is a frame that is neither a
    string nor a Buffer. *)
Theorem unrecognised_message_ignored c h message st :
  handles st !! c = Some h →
  (∀ ty, prop message "type" = Some (VStr ty) →
         ty ≠ "subscribe" ∧ ty ≠ "unsubscribe" ∧ ty ≠ "publish"
         ∧ ty ≠ "ping") →
  step st (Message c (Parsed message)) = Some (Done st)
  ∧ step st (Message c Binary) = Some (Done st).
Proof.
  intros Hh Hty. simpl. rewrite Hh. simpl. split; [|done]. f_equal.
  unfold route. destruct (_ && _ && _); [|done].
  destruct (prop message "type") as [[| | |ty| |]|]; try done.
  destruct (Hty ty eq_refl) as (H1 & H2 & H3 & H4).
  apply String.eqb_neq in H1, H2, H3, H4. by rewrite H1, H2, H3, H4.
Qed.

(** X17. The heartbeat never stops silently: in every reachable state a
    connection whose timer is cleared has had [close()] called on it. *)
Theorem timer_cleared_only_with_close st c h :
  reachable st → handles st !! c = Some h → pingInterval h = false →
  CallClose c ∈ calls st.
Proof.
  intros (sk & evs & Hrun). revert c h.
  assert (Hgen : ∀ st0,
            (∀ c h, handles st0 !! c = Some h → pingInterval h = false →
                    CallClose c ∈ calls st0) →
            run st0 evs = Some (Done st) →
            ∀ c h, handles st !! c = Some h → pingInterval h = false →
                   CallClose c ∈ calls st).
  { clear Hrun. induction evs as [|ev evs IH]; intros st0 Hold; simpl.
    - by intros [= <-].
    - destruct (step st0 ev) as [[st1|]|] eqn:Hstep; [|done..].
      apply IH. by eapply step_timer. }
  apply (Hgen (init sk)); [|done].
  intros c h Hh. simpl in Hh. by rewrite lookup_empty in Hh.
Qed.

(** X18. Whom a callback calls: the calls that one event adds are made on
    the connection of the event itself, or, when the event is a publish
    message, on members of the subscriber set of the published topic,
    which are accepted connections that are not closed; no other
    connection is called, and earlier calls are kept. *)
Theorem calls_reach_only_open_subscribers st (ev : event S) st' :
  reachable st → step st ev = Some (Done st') →
  ∃ new, calls st' = calls st ++ new
         ∧ Forall (λ k, call_conn k = event_conn ev
              ∨ ∃ message T h,
                  ev = Message (event_conn ev) (Parsed message)
                  ∧ prop message "type" = Some (VStr "publish")
                  ∧ prop message "topic" = Some (VStr T)
                  ∧ call_conn k ∈ subscribers st T
                  ∧ handles st !! call_conn k = Some h
                  ∧ closed h = false) new.
Proof.
  intros Hreach Hstep.
  destruct (step_calls_topic _ _ _ Hstep) as (new & Hcalls & Hon).
  exists new. split; [done|]. eapply list.Forall_impl; [exact Hon|].
  intros k [?|(message & T & Hev & Hty & Hto & Hin)]; [by left|right].
  exists message, T.
  pose proof (reachable_inv _ Hreach) as Hinv.
  assert (∃ h, handles st !! call_conn k = Some h ∧ closed h = false)
    as (h & Hh & Hcl).
  { unfold subscribers in Hin.
    destruct (topics st !! T) as [subs|] eqn:HT; simpl in Hin;
      [|by apply not_elem_of_nil in Hin].
    destruct (inv_member _ _ Hinv _ _ _ HT Hin) as (h & Hh & Hl).
    exists h. split; [done|]. destruct (closed h) eqn:Hcl; [|done].
    rewrite (inv_closed _ _ Hinv _ _ Hh Hcl) in Hl.
    by apply not_elem_of_nil in Hl. }
  exists h. done.
Qed.
End Lifecycle.

(** * Concrete runs for the further theorems *)

Lemma room_member : 2%nat ∈ subscribers room "room1".
Proof. vm_compute. apply list_elem_of_further, list_elem_of_here. Qed.

(** Connection 2 in [room1]. *)
Lemma subscriber_is_open_and_listed_witness :
  reachable room ∧ 2%nat ∈ subscribers room "room1"
  ∧ NoDup (subscribers room "room1")
  ∧ ∃ h, handles room !! 2%nat = Some h ∧ closed h = false
         ∧ "room1" ∈ subscribedTopics h.
Proof.
  split; [exact reachable_room|]. split; [exact room_member|].
  exact (subscriber_is_open_and_listed room "room1" 2
           reachable_room room_member).
Defined.

(** Connection 1, open and subscribed to [room1], leaves by closing:
    connection 2 stays, and the closure of connection 1 is closed with
    no topic. *)
Lemma close_unwinds_registry_witness :
  reachable room
  ∧ (∃ h, handles room !! 1%nat = Some h ∧ closed h = false
          ∧ subscribedTopics h = ["room1"])
  ∧ ∃ (st' : state Z) h',
      step room (Close 1) = Some (Done st')
      ∧ subscribers st' "room1" = [2%nat]
      ∧ handles st' !! 1%nat = Some h'
      ∧ closed h' = true ∧ subscribedTopics h' = []
      ∧ pingInterval h' = true
      ∧ calls st' = [].
Proof.
  split; [exact reachable_room|].
  split; [by exists (set_subscribedTopics ["room1"] fresh_handle)|].
  destruct (close_unwinds_registry 1
              (set_subscribedTopics ["room1"] fresh_handle) room
              reachable_room eq_refl)
    as (st' & h' & Hstep & Hsubs & _ & Hh' & Hcl & Hl & _ & Htimer & Hcalls).
  exists st', h'. split; [exact Hstep|].
  split; [rewrite Hsubs; reflexivity|]. split; [exact Hh'|].
  split; [exact Hcl|]. split; [exact Hl|]. split; [exact Htimer|exact Hcalls].
Defined.

Lemma close_twice_witness :
  ∃ st1 : state Z,
    step room (Close 1) = Some (Done st1)
    ∧ step st1 (Close 1) = Some (Done st1).
Proof.
  exact (close_twice 1 (set_subscribedTopics ["room1"] fresh_handle) room
           eq_refl).
Defined.

Lemma ping_elicits_pong_witness :
  ∃ st' : state Z,
    step accepted (Message 1 (Parsed (VObj [("type", VStr "ping")])))
    = Some (Done st')
    ∧ sends_of (calls st') = [(1%nat, pong_msg)].
Proof.
  destruct (ping_elicits_pong 1 fresh_handle (VObj [("type", VStr "ping")])
              accepted eq_refl eq_refl eq_refl)
    as (st' & new & Hstep & Hsends & _).
  exists st'. split; [exact Hstep|exact Hsends].
Defined.

(** Connection 1, subscribed to nothing, unsubscribes from [room1] and
    from a topic nobody knows. *)
Lemma unsubscribe_not_joined_witness :
  step accepted
       (Message 1 (Parsed (unsubscribe_msg [VStr "room1"; VStr "x"])))
  = Some (Done accepted).
Proof.
  apply (unsubscribe_not_joined 1 fresh_handle _
           [VStr "room1"; VStr "x"]); [reflexivity..|].
  intros T _ Hin. by apply not_elem_of_nil in Hin.
Defined.

Lemma unsubscribe_removes_sender_witness :
  ∃ st' : state Z,
    step room (Message 1 (Parsed (unsubscribe_msg [VStr "room1"; VNull])))
    = Some (Done st')
    ∧ subscribers st' "room1" = [2%nat].
Proof.
  destruct (unsubscribe_removes_sender 1
              (set_subscribedTopics ["room1"] fresh_handle)
              (unsubscribe_msg [VStr "room1"; VNull])
              [VStr "room1"; VNull] room eq_refl eq_refl eq_refl eq_refl)
    as (st' & Hstep & Hsubs & _).
  exists st'. split; [exact Hstep|]. rewrite Hsubs. reflexivity.
Defined.

Lemma subscribe_adds_sender_witness :
  ∃ st' : state Z,
    step room (Message 2 (Parsed (subscribe_msg [VStr "b"; VStr "room1"])))
    = Some (Done st')
    ∧ subscribers st' "b" = [2%nat]
    ∧ subscribers st' "room1" = [1%nat; 2%nat].
Proof.
  destruct (subscribe_adds_sender 2
              (set_subscribedTopics ["room1"] fresh_handle)
              (subscribe_msg [VStr "b"; VStr "room1"])
              [VStr "b"; VStr "room1"] room eq_refl eq_refl eq_refl eq_refl)
    as (st' & h' & Hstep & _ & Hsubs & _).
  exists st'. split; [exact Hstep|]. rewrite !Hsubs. split; reflexivity.
Defined.

(** Connection 1 joins [b]; connection 2, not a member, publishes to it. *)
Lemma subscribed_connection_receives_witness :
  reachable room
  ∧ ∃ (st1 st2 : state Z) news,
      step room (Message 1 (Parsed (subscribe_msg [VStr "b"])))
      = Some (Done st1)
      ∧ step st1 (Message 2 (Parsed (publish_msg "b"))) = Some (Done st2)
      ∧ sends_of (calls st2) = news
      ∧ filter (λ p, p.1 = 1%nat) news
        = [(1%nat, VObj [("type", VStr "publish"); ("topic", VStr "b");
                         ("data", VStr "hi"); ("clients", VNum 1)])].
Proof.
  split; [exact reachable_room|].
  destruct (subscribed_connection_receives 1
              (set_subscribedTopics ["room1"] fresh_handle) 2
              (set_subscribedTopics ["room1"] fresh_handle)
              (publish_msg "b") "b" room reachable_room
              eq_refl eq_refl eq_refl eq_refl eq_refl eq_refl)
    as (st1 & st2 & news & message' & Hs1 & Hs2 & Hsends & Hone & Hmsg & _);
    [done|].
  exists st1, st2, news. split; [exact Hs1|].
  split; [exact Hs2|]. split; [exact Hsends|].
  rewrite Hone, Hmsg. f_equal. f_equal.
  assert (Hst1 : st1 = subscribe 1 (set_subscribedTopics ["room1"] fresh_handle)
                         [VStr "b"] room).
  { assert (Hs1' : step room (Message 1 (Parsed (subscribe_msg [VStr "b"])))
                   = Some (Done (subscribe 1
                        (set_subscribedTopics ["room1"] fresh_handle)
                        [VStr "b"] room))) by reflexivity.
    rewrite Hs1 in Hs1'. by injection Hs1'. }
  rewrite Hst1. vm_compute. reflexivity.
Defined.

(** Connection 1 leaves [room1]; connection 2 publishes to it. *)
Lemma unsubscribed_connection_skipped_witness :
  ∃ (st1 st2 : state Z) news,
    step room (Message 1 (Parsed (unsubscribe_msg [VStr "room1"])))
    = Some (Done st1)
    ∧ step st1 (Message 2 (Parsed (publish_msg "room1"))) = Some (Done st2)
    ∧ sends_of (calls st2) = news
    ∧ ∀ p, p ∈ news → p.1 ≠ 1%nat.
Proof.
  destruct (unsubscribed_connection_skipped 1
              (set_subscribedTopics ["room1"] fresh_handle) 2
              (set_subscribedTopics ["room1"] fresh_handle)
              (publish_msg "room1") "room1" room
              eq_refl eq_refl eq_refl eq_refl eq_refl eq_refl)
    as (st1 & st2 & news & Hs1 & Hs2 & Hsends & Hnot).
  exists st1, st2, news. split; [exact Hs1|]. split; [exact Hs2|].
  split; [exact Hsends|exact Hnot].
Defined.

Lemma room_not_in_b : 2%nat ∉ subscribers room "b".
Proof. vm_compute. apply not_elem_of_nil. Qed.

Lemma subscribe_then_unsubscribe_witness :
  (2%nat ∉ subscribers room "b")
  ∧ ∃ st1 st2 : state Z,
      step room (Message 2 (Parsed (subscribe_msg [VStr "b"])))
      = Some (Done st1)
      ∧ step st1 (Message 2 (Parsed (unsubscribe_msg [VStr "b"])))
        = Some (Done st2)
      ∧ (∀ T', subscribers st2 T' = subscribers room T')
      ∧ calls st2 = [].
Proof.
  split; [exact room_not_in_b|].
  exact (subscribe_then_unsubscribe 2
           (set_subscribedTopics ["room1"] fresh_handle) "b" room
           eq_refl eq_refl room_not_in_b).
Defined.

(** The close of connection 1, seen from connection 2. *)
Lemma event_leaves_other_connections_witness :
  ∃ st' : state Z,
    step room (Close 1) = Some (Done st')
    ∧ handles st' !! 2%nat = handles room !! 2%nat
    ∧ ∀ T, 2%nat ∈ subscribers st' T ↔ 2%nat ∈ subscribers room T.
Proof.
  eexists. split; [reflexivity|].
  apply (event_leaves_other_connections room (Close 1));
    [reflexivity|discriminate].
Defined.

(** Connection 1 closes, then a subscribe and a pong arrive for it. *)
Lemma closed_is_final_witness :
  ∃ (st st' : state Z) h,
    run (init all_open)
        [Connection 1; Message 1 (Parsed (subscribe_msg [VStr "a"]));
         Close 1] = Some (Done st)
    ∧ handles st !! 1%nat = Some h ∧ closed h = true
    ∧ run st [Message 1 (Parsed (subscribe_msg [VStr "a"])); Pong 1]
      = Some (Done st')
    ∧ ∃ h', handles st' !! 1%nat = Some h' ∧ closed h' = true
            ∧ subscribedTopics h' = [] ∧ ∀ T, 1%nat ∉ subscribers st' T.
Proof.
  eexists _, _, _. split; [vm_compute; reflexivity|].
  split; [vm_compute; reflexivity|]. split; [reflexivity|].
  lazymatch goal with
  | |- run ?st ?evs = _ ∧ _ =>
      split; [vm_compute; reflexivity|];
      eapply (closed_is_final st evs);
        [exists all_open,
           [Connection 1; Message 1 (Parsed (subscribe_msg [VStr "a"]));
            Close 1]; vm_compute; reflexivity
        |vm_compute; reflexivity|reflexivity|vm_compute; reflexivity]
  end.
Defined.

Lemma topic_entries_are_listed_witness :
  reachable room
  ∧ (∀ T subs, topics room !! T = Some subs →
       ∃ c h, handles room !! c = Some h ∧ closed h = false
              ∧ T ∈ subscribedTopics h)
  ∧ ((∀ c h, handles room !! c = Some h → closed h = true) →
     topics room = ∅).
Proof.
  split; [exact reachable_room|].
  exact (topic_entries_are_listed room reachable_room).
Defined.

(** The first two ticks of a connection that never answers. *)
Lemma two_silent_ticks_close_witness :
  ∃ (st2 : state Z) h2 before,
    run accepted [Tick 1; Tick 1] = Some (Done st2)
    ∧ handles st2 !! 1%nat = Some h2 ∧ pingInterval h2 = false
    ∧ calls st2 = before ++ [CallClose 1] ∧ CallPing 1 ∈ before
    ∧ step st2 (Tick 1) = None.
Proof.
  exact (two_silent_ticks_close 1 fresh_handle accepted
           eq_refl eq_refl eq_refl).
Defined.

(** A message of an unknown type. *)
Lemma unrecognised_message_ignored_witness :
  step accepted (Message 1 (Parsed (VObj [("type", VStr "hello")])))
  = Some (Done accepted)
  ∧ step accepted (Message 1 Binary) = Some (Done accepted).
Proof.
  apply (unrecognised_message_ignored 1 fresh_handle); [reflexivity|].
  intros ty [= <-]. split_and!; discriminate.
Defined.

(** A connection evicted by its heartbeat. *)
Lemma timer_cleared_only_with_close_witness :
  ∃ (st : state Z) h,
    run (init all_open) [Connection 1; Tick 1; Tick 1] = Some (Done st)
    ∧ handles st !! 1%nat = Some h ∧ pingInterval h = false
    ∧ CallClose 1 ∈ calls st.
Proof.
  eexists _, _. split; [vm_compute; reflexivity|].
  split; [vm_compute; reflexivity|]. split; [reflexivity|].
  eapply timer_cleared_only_with_close;
    [exists all_open, [Connection 1; Tick 1; Tick 1]; vm_compute; reflexivity
    |vm_compute; reflexivity|reflexivity].
Defined.

(** Connection 1 publishes to [room1]: the calls are the two sends, to
    the members 1 and 2. *)
Lemma calls_reach_only_open_subscribers_witness :
  reachable room
  ∧ step room (Message 1 (Parsed (publish_msg "room1")))
    = Some (Done (publish (publish_msg "room1") room))
  ∧ call_conn <$> calls (publish (publish_msg "room1") room)
    = [1%nat; 2%nat]
  ∧ ∃ new,
      calls (publish (publish_msg "room1") room) = calls room ++ new
      ∧ Forall (λ k, call_conn k = 1%nat
           ∨ ∃ message T h,
               (Message 1 (Parsed (publish_msg "room1")) : event Z)
               = Message 1 (Parsed message)
               ∧ prop message "type" = Some (VStr "publish")
               ∧ prop message "topic" = Some (VStr T)
               ∧ call_conn k ∈ subscribers room T
               ∧ handles room !! call_conn k = Some h
               ∧ closed h = false) new.
Proof.
  split; [exact reachable_room|]. split; [reflexivity|].
  split; [vm_compute; reflexivity|].
  exact (calls_reach_only_open_subscribers room
           (Message 1 (Parsed (publish_msg "room1")))
           (publish (publish_msg "room1") room) reachable_room eq_refl).
Defined.
